(** * bowtie-inspect: reconstruction of reference sequences from an index

    A shallow embedding of [bowtie_inspect.cpp]: option parsing
    ([parseInt], [parseOptions]), the FASTA line wrapper
    ([print_fasta_record]), the scan that rebuilds the reference
    sequences from the joined text ([print_index_sequences]), the
    name lister ([print_index_sequence_names]), [driver] and [main].

    Conventions.
    - [uint32_t] values are [Z] in [0, 2^32); subtraction wraps with
      [sub32].  [size_t] values are [Z] in [0, 2^64).
    - [std::string] is [list ascii]; an [ostream] is the list of lines
      written so far (every [<< endl] closes one line).
    - [exit] is an outcome of the small monad [M]. *)

From Stdlib Require Import ZArith List Ascii String Bool Lia Arith Permutation.
Import ListNotations.
Local Open Scope Z_scope.

(** ** Machine integers *)

Definition UINT32_MOD : Z := 2 ^ 32.
Definition SIZE_MOD : Z := 2 ^ 64.

(** The [0xffffffff] sentinel used for "no reference". *)
Definition NOREF : Z := 0xffffffff.

Definition sub32 (a b : Z) : Z := (a - b) mod UINT32_MOD.
Definition add_size (a b : Z) : Z := (a + b) mod SIZE_MOD.
Definition sub_size (a b : Z) : Z := (a - b) mod SIZE_MOD.

(** Conversion of an [int] to [size_t] (sign extension, then wrap). *)
Definition size_t_of_int (x : Z) : Z := x mod SIZE_MOD.

(** The cast [(int32_t)l] of a [long]. *)
Definition int32_of_long (l : Z) : Z := (l + 2 ^ 31) mod UINT32_MOD - 2 ^ 31.

(** ** Strings and streams *)

Definition cstring : Type := list ascii.
Definition ostream : Type := list cstring.

Definition str (s : string) : cstring := list_ascii_of_string s.

Definition strlen (s : cstring) : Z := Z.of_nat (List.length s).

(** [std::string(n, c)] *)
Definition fill (n : Z) (c : ascii) : cstring := repeat c (Z.to_nat n).

(** [s.substr(pos, n)] and [s.substr(pos)] for [pos <= s.length()]. *)
Definition substr (s : cstring) (pos n : Z) : cstring :=
  firstn (Z.to_nat n) (skipn (Z.to_nat pos) s).
Definition substr_from (s : cstring) (pos : Z) : cstring :=
  skipn (Z.to_nat pos) s.

(** [out << s << endl] *)
Definition put_line (out : ostream) (s : cstring) : ostream := out ++ [s].

(** ** The index, as far as this file looks at it *)

Inductive Dna : Type := DnaA | DnaC | DnaG | DnaT.

Definition dna_char (d : Dna) : ascii :=
  match d with
  | DnaA => "A" | DnaC => "C" | DnaG => "G" | DnaT => "T"
  end%char.

(** What [joinedToTextOff(1, i, tidx, textoff, tlen, true)] leaves in its
    three reference arguments, each of which the caller sets to
    [0xffffffff] just before the call. *)
Record TextOff : Type := mkTextOff {
  to_tidx : Z;
  to_textoff : Z;
  to_tlen : Z
}.

Definition unmapped : TextOff := mkTextOff NOREF NOREF NOREF.

Record Ebwt : Type := mkEbwt {
  refnames : list cstring;
  restore : list Dna;
  joinedToTextOff : Z -> TextOff
}.

(** ** [print_fasta_record] *)

(** The [while (i + across < seq.length())] loop.  It returns the final
    [i] and the stream; [None] when [fuel] iterations did not finish it. *)
Fixpoint fasta_loop (fuel : nat) (across : Z) (seq : cstring) (i : Z)
    (fout : ostream) : option (Z * ostream) :=
  match fuel with
  | O => None
  | S fuel' =>
      if add_size i (size_t_of_int across) <? strlen seq
      then fasta_loop fuel' across seq (add_size i (size_t_of_int across))
             (put_line fout (substr seq i (size_t_of_int across)))
      else Some (i, fout)
  end.

Definition print_fasta_record (fuel : nat) (across : Z) (fout : ostream)
    (defline seq : cstring) : option ostream :=
  let fout := put_line fout (">"%char :: defline) in
  match fasta_loop fuel across seq 0 fout with
  | None => None
  | Some (i, fout) =>
      Some (if i <? strlen seq then put_line fout (substr_from seq i) else fout)
  end.

(** ** [print_index_sequences] *)

(** The locals that live across iterations of the scan, and the calls
    [print_fasta_record(fout, refnames[curr_ref], curr_ref_seq)] made
    so far, each kept as the pair of its [curr_ref] and [curr_ref_seq]. *)
Record scan_state : Type := mkScan {
  curr_ref : Z;
  curr_ref_seq : cstring;
  last_text_off : Z;
  tlen : Z;
  yielded : list (Z * cstring)
}.

Definition scan_init : scan_state := mkScan NOREF [] 0 NOREF [].

(** "Add trailing gaps, if any exist" *)
Definition add_trailing_gaps (tlen : Z) (s : cstring) : cstring :=
  if strlen s <? tlen then s ++ fill (tlen - strlen s) "N"%char else s.

(** The gap inserted in front of the character at [textoff]. *)
Definition add_gap (textoff last_text_off : Z) (s : cstring) : cstring :=
  if 1 <? sub32 textoff last_text_off
  then s ++ fill (sub32 (sub32 textoff last_text_off)
                        (if last_text_off =? 0 then 0 else 1)) "N"%char
  else s.

(** Lines 152-165: a different reference starts. *)
Definition switch_ref (st : scan_state) (tidx tlen' : Z) : scan_state :=
  if negb (curr_ref st =? tidx) then
    mkScan tidx [] 0 tlen'
      (if negb (curr_ref st =? NOREF)
       then yielded st ++ [(curr_ref st, add_trailing_gaps tlen' (curr_ref_seq st))]
       else yielded st)
  else mkScan (curr_ref st) (curr_ref_seq st) (last_text_off st) tlen' (yielded st).

(** The test [tidx != 0xffffffff && textoff < tlen]. *)
Definition owned (ans : TextOff) : bool :=
  negb (to_tidx ans =? NOREF) && (to_textoff ans <? to_tlen ans).

(** One iteration of the [for] loop, on character [c] = [getValue(cat_ref,i)]
    and the oracle's answer for [i]. *)
Definition scan_step (st : scan_state) (c : Dna) (ans : TextOff) : scan_state :=
  if owned ans then
    let st1 := switch_ref st (to_tidx ans) (to_tlen ans) in
    mkScan (curr_ref st1)
           (add_gap (to_textoff ans) (last_text_off st1) (curr_ref_seq st1)
              ++ [dna_char c])
           (to_textoff ans)
           (to_tlen ans)
           (yielded st1)
  else mkScan (curr_ref st) (curr_ref_seq st) (last_text_off st)
              (to_tlen ans) (yielded st).

(** The [for] loop from position [i] on; [cat] holds the characters of
    [cat_ref] from [i] to the end. *)
Fixpoint scan_loop (oracle : Z -> TextOff) (cat : list Dna) (i : Z)
    (st : scan_state) : scan_state :=
  match cat with
  | [] => st
  | c :: cat' => scan_loop oracle cat' (i + 1) (scan_step st c (oracle i))
  end.

(** Lines 174-181: the last reference, if [curr_ref] indexes [refnames]. *)
Definition scan_finish (nrefs : Z) (st : scan_state) : list (Z * cstring) :=
  if curr_ref st <? nrefs
  then yielded st ++ [(curr_ref st, add_trailing_gaps (tlen st) (curr_ref_seq st))]
  else yielded st.

(** The records handed to [print_fasta_record], in order. *)
Definition reconstruct (ebwt : Ebwt) : list (Z * cstring) :=
  scan_finish (Z.of_nat (List.length (refnames ebwt)))
    (scan_loop (joinedToTextOff ebwt) (restore ebwt) 0 scan_init).

(** Writing them: [refnames[curr_ref]] is outside the vector when
    [curr_ref >= refnames->size()], which gives [None]. *)
Fixpoint print_records (fuel : nat) (across : Z) (names : list cstring)
    (recs : list (Z * cstring)) (fout : ostream) : option ostream :=
  match recs with
  | [] => Some fout
  | (r, s) :: recs' =>
      match nth_error names (Z.to_nat r) with
      | None => None
      | Some name =>
          match print_fasta_record fuel across fout name s with
          | None => None
          | Some fout' => print_records fuel across names recs' fout'
          end
      end
  end.

Definition print_index_sequences (fuel : nat) (across : Z) (fout : ostream)
    (ebwt : Ebwt) : option ostream :=
  print_records fuel across (refnames ebwt) (reconstruct ebwt) fout.

(** ** [print_index_sequence_names] *)

(** The loop either runs to its bound or reaches an [i] that is not an
    index of the vector.  [reads] lists the indices read so far. *)
Inductive names_result : Type :=
| NamesDone (fout : ostream) (reads : list Z)
| NamesOutOfBounds (i : Z) (fout : ostream) (reads : list Z).

(** [for (size_t i = ...; i < bound; ++i)], where [tail] holds the entries
    of the vector from index [i] on. *)
Fixpoint names_loop (tail : list cstring) (i bound : Z) (fout : ostream)
    (reads : list Z) : names_result :=
  if i <? bound then
    match tail with
    | [] => NamesOutOfBounds i fout reads
    | name :: tail' =>
        names_loop tail' (add_size i 1) bound (put_line fout name) (reads ++ [i])
    end
  else NamesDone fout reads.

(** [p_refnames] is the address of a reference and is never null.  The
    bound is [p_refnames->size() - 1] in [size_t]. *)
Definition names_bound (names : list cstring) : Z :=
  sub_size (Z.of_nat (List.length names)) 1.

Definition print_index_sequence_names (fout : ostream) (ebwt : Ebwt)
    : names_result :=
  names_loop (refnames ebwt) 0 (names_bound (refnames ebwt)) fout [].

(** ** Processes: two streams and [exit] *)

(** The lines written through the stream objects [cout] and [cerr] by the
    code of this file.  What the C library writes on its own to the
    standard error (the message of [getopt_long] before it returns ['?']
    for an option it does not know or that lacks its argument) does not
    go through [cerr] and is not part of [cerr] here. *)
Record streams : Type := mkStreams { cout : ostream; cerr : ostream }.

Definition no_output : streams := mkStreams [] [].

Inductive outcome (A : Type) : Type :=
| Ok (a : A) (io : streams)
| Exit (code : Z) (io : streams)
| Undefined.
Arguments Ok {A} a io.
Arguments Exit {A} code io.
Arguments Undefined {A}.

Definition M (A : Type) : Type := streams -> outcome A.

Definition ret {A} (a : A) : M A := fun io => Ok a io.

Definition bind {A B} (m : M A) (k : A -> M B) : M B :=
  fun io =>
    match m io with
    | Ok a io' => k a io'
    | Exit code io' => Exit code io'
    | Undefined => Undefined
    end.

Notation "x <- m ;; k" := (bind m (fun x => k))
  (at level 61, m at next level, right associativity).
Notation "m ;;; k" := (bind m (fun _ => k))
  (at level 61, right associativity).

Definition exit {A} (code : Z) : M A := fun io => Exit code io.

Definition on_cout (f : ostream -> ostream) : M unit :=
  fun io => Ok tt (mkStreams (f (cout io)) (cerr io)).

Definition on_cerr (f : ostream -> ostream) : M unit :=
  fun io => Ok tt (mkStreams (cout io) (f (cerr io))).

(** ** Options *)

Record Options : Type := mkOptions {
  verbose : bool;
  names_only : bool;
  across : Z
}.

Definition default_options : Options := mkOptions false false 60.

Definition code (c : ascii) : Z := Z.of_nat (nat_of_ascii c).

Definition printUsage (out : ostream) : ostream :=
  out ++ map str
    [ "Usage: bowtie-inspect [options]* <ebwt_base>";
      "  <ebwt_base>        ebwt filename minus trailing .1.ebwt/.2.ebwt";
      "Options:";
      "  -a/--across        number of characters across in FASTA output (default: 60)";
      "  -n/--names         Print reference sequence names only";
      "  -v/--verbose       verbose output (for debugging)";
      "  -h/--help          print detailed description of tool and its options" ]%string.

Definition printLongUsage (out : ostream) : ostream :=
  out ++ [ []; str "LONG USAGE TODO"; [] ].

Section Program.

(** What the file takes from outside: [strtol(optarg, &endPtr, 10)]
    gives the [long] and [endPtr] ([None] for [NULL], else an offset
    into [optarg]); [loadEbwt] stands for [adjustEbwtBase], the [Ebwt]
    constructor and [loadIntoMemory]; the last two are
    [currentlyBigEndian()] and whether [NDEBUG] is defined. *)
Variable strtol : cstring -> Z * option Z.
Variable loadEbwt : cstring -> Ebwt.
Variable currentlyBigEndian : bool.
Variable NDEBUG : bool.

Definition parseInt (lower : Z) (errmsg : cstring) (optarg : cstring) : M Z :=
  let '(l, endPtr) := strtol optarg in
  match endPtr with
  | Some _ =>
      if l <? lower then
        on_cerr (fun e => put_line e errmsg) ;;;
        on_cerr printUsage ;;;
        exit 1
      else ret (int32_of_long l)
  | None =>
      on_cerr (fun e => put_line e errmsg) ;;;
      on_cerr printUsage ;;;
      exit 1
  end.

(** One turn of the [do ... while] loop on a value returned by
    [getopt_long] ([optarg] matters for ['a'] only).  [inl] ends the
    loop, [inr] goes on.  Every entry of [long_options] has a null
    [flag], so [case 0] falls through to [default]. *)
Definition parseOption (next_option : Z) (optarg : cstring) (o : Options)
    : M (Options + Options) :=
  if next_option =? code "h" then
    on_cout printLongUsage ;;; exit 0
  else if next_option =? code "?" then
    on_cerr printUsage ;;; exit 1
  else if next_option =? code "v" then
    ret (inr (mkOptions true (names_only o) (across o)))
  else if next_option =? code "n" then
    ret (inr (mkOptions (verbose o) true (across o)))
  else if next_option =? code "a" then
    a <- parseInt 1 (str "-a/--across arg must be at least 1") optarg ;;
    ret (inr (mkOptions (verbose o) (names_only o) a))
  else if next_option =? -1 then
    ret (inl o)
  else
    on_cerr (fun e => put_line e
               (str "Unknown option: "
                  ++ [ascii_of_nat (Z.to_nat (next_option mod 256))])) ;;;
    on_cerr printUsage ;;;
    exit 1.

(** [opts] lists what the successive calls of [getopt_long] return; once
    the list is used up it returns [-1]. *)
Fixpoint parseOptions (opts : list (Z * cstring)) (o : Options) : M Options :=
  match opts with
  | [] => ret o
  | (next_option, optarg) :: opts' =>
      r <- parseOption next_option optarg o ;;
      match r with
      | inl o' => ret o'
      | inr o' => parseOptions opts' o'
      end
  end.

Definition driver (fuel : nat) (o : Options) (ebwtFileBase : cstring) : M unit :=
  let ebwt := loadEbwt ebwtFileBase in
  fun io =>
    if names_only o then
      match print_index_sequence_names (cout io) ebwt with
      | NamesDone fout _ => Ok tt (mkStreams fout (cerr io))
      | NamesOutOfBounds _ _ _ => Undefined
      end
    else
      match print_index_sequences fuel (across o) (cout io) ebwt with
      | Some fout => Ok tt (mkStreams fout (cerr io))
      | None => Undefined
      end.

Definition quote : ascii := ascii_of_nat 34.

(** [main], given what [getopt_long] returns and the arguments left at
    [optind].  [showVersion] is never set, so that branch is left out. *)
Definition main (fuel : nat) (opts : list (Z * cstring))
    (args : list cstring) : M Z :=
  o <- parseOptions opts default_options ;;
  match args with
  | [] =>
      on_cerr (fun e => put_line e (str "No index name given!")) ;;;
      on_cerr printUsage ;;;
      ret 1
  | ebwtFile :: _ =>
      (if verbose o then
         on_cout (fun c => put_line c
                    (str "Input ebwt file: " ++ [quote] ++ ebwtFile ++ [quote])) ;;;
         on_cout (fun c => put_line c
                    (str "Output file: " ++ [quote] ++ [quote])) ;;;
         on_cout (fun c => put_line c
                    (str "Local endianness: "
                       ++ (if currentlyBigEndian then str "big" else str "little"))) ;;;
         on_cout (fun c => put_line c
                    (if NDEBUG then str "Assertions: disabled"
                     else str "Assertions: enabled"))
       else ret tt) ;;;
      driver fuel o ebwtFile ;;;
      ret 0
  end.

End Program.

(** ** A decimal [strtol]

    The C library's [strtol(s, &endPtr, 10)] on a 64-bit [long]: leading
    white space, an optional sign, digits; the value is clamped to the
    range of [long]; [endPtr] is never [NULL], and is [s] itself when no
    digit was read. *)

Definition LONG_MAX : Z := 2 ^ 63 - 1.
Definition LONG_MIN : Z := - 2 ^ 63.

Definition is_space (c : ascii) : bool :=
  (code c =? 32) || ((9 <=? code c) && (code c <=? 13)).

Definition digit_of (c : ascii) : option Z :=
  if (code "0" <=? code c) && (code c <=? code "9")
  then Some (code c - code "0") else None.

Fixpoint skip_spaces (s : cstring) : cstring :=
  match s with
  | c :: s' => if is_space c then skip_spaces s' else s
  | [] => []
  end.

Fixpoint read_digits (s : cstring) (acc : Z) (n : Z) : Z * Z :=
  match s with
  | c :: s' =>
      match digit_of c with
      | Some d => read_digits s' (10 * acc + d) (n + 1)
      | None => (acc, n)
      end
  | [] => (acc, n)
  end.

Definition clamp_long (v : Z) : Z := Z.max LONG_MIN (Z.min LONG_MAX v).

Definition strtol10 (s : cstring) : Z * option Z :=
  let body := skip_spaces s in
  let skipped := strlen s - strlen body in
  let '(neg, digits, signlen) :=
    match body with
    | c :: body' =>
        if code c =? code "-" then (true, body', 1)
        else if code c =? code "+" then (false, body', 1)
        else (false, body, 0)
    | [] => (false, body, 0)
    end in
  let '(v, n) := read_digits digits 0 0 in
  if n =? 0 then (0, Some 0)
  else (clamp_long (if neg then - v else v), Some (skipped + signlen + n)).

(** ** Words of the specification *)

(** The oracle's answers for the positions of the scan, in scan order. *)
Fixpoint answers (oracle : Z -> TextOff) (cat : list Dna) (i : Z) : list TextOff :=
  match cat with
  | [] => []
  | _ :: cat' => oracle i :: answers oracle cat' (i + 1)
  end.

Definition scan_answers (ebwt : Ebwt) : list TextOff :=
  answers (joinedToTextOff ebwt) (restore ebwt) 0.

(** The record identities of the owned positions, in scan order. *)
Definition owned_ids (ebwt : Ebwt) : list Z :=
  map to_tidx (filter owned (scan_answers ebwt)).

(** Identities closed while going through [ids] with [cur] current, and
    the identity current at the end. *)
Fixpoint closed_ids (cur : Z) (ids : list Z) : list Z :=
  match ids with
  | [] => []
  | x :: ids' =>
      if cur =? x then closed_ids cur ids'
      else (if cur =? NOREF then [] else [cur]) ++ closed_ids x ids'
  end.

Fixpoint last_id (cur : Z) (ids : list Z) : Z :=
  match ids with
  | [] => cur
  | x :: ids' => last_id x ids'
  end.

(** One identity per maximal run of equal consecutive identities. *)
Fixpoint runs_from (cur : Z) (ids : list Z) : list Z :=
  match ids with
  | [] => [cur]
  | x :: ids' => if cur =? x then runs_from cur ids' else cur :: runs_from x ids'
  end.

Definition run_heads (ids : list Z) : list Z :=
  match ids with
  | [] => []
  | x :: ids' => runs_from x ids'
  end.

Definition mem (x : Z) (l : list Z) : bool := existsb (Z.eqb x) l.

(** The identities of [ids] in the order of their first occurrence. *)
Fixpoint first_seen (seen : list Z) (ids : list Z) : list Z :=
  match ids with
  | [] => []
  | x :: ids' =>
      if mem x seen then first_seen seen ids'
      else x :: first_seen (x :: seen) ids'
  end.

(** All labels but the last one. *)
Definition all_but_last {A} (l : list A) : list A := removelast l.

(** ** Sample indexes *)

Definition table_oracle (t : list TextOff) (i : Z) : TextOff :=
  nth (Z.to_nat i) t unmapped.

(** One record of length 3 whose offset 1 is not in the index. *)
Definition ebwt_gap02 : Ebwt :=
  mkEbwt [str "r0"] [DnaA; DnaC]
    (table_oracle [mkTextOff 0 0 3; mkTextOff 0 2 3]).

(** One record of length 20 with offsets 0,1,2,7,8,15 in the index. *)
Definition ebwt_gap20_of (name : cstring) (c0 c1 c2 c7 c8 c15 : Dna) : Ebwt :=
  mkEbwt [name] [c0; c1; c2; c7; c8; c15]
    (table_oracle [mkTextOff 0 0 20; mkTextOff 0 1 20; mkTextOff 0 2 20;
                   mkTextOff 0 7 20; mkTextOff 0 8 20; mkTextOff 0 15 20]).

Definition ebwt_gap20 : Ebwt :=
  ebwt_gap20_of (str "r0") DnaA DnaC DnaG DnaT DnaA DnaC.

(** Record 0 of length 3 with offset 0 only, then record 1 of length 5. *)
Definition ebwt_two : Ebwt :=
  mkEbwt [str "r0"; str "r1"] [DnaA; DnaC]
    (table_oracle [mkTextOff 0 0 3; mkTextOff 1 0 5]).

(** Records of lengths 5 and 3; record 1 lacks offset 1. *)
Definition ebwt_5_3 : Ebwt :=
  mkEbwt [str "r0"; str "r1"]
    [DnaA; DnaC; DnaG; DnaT; DnaA; DnaG; DnaT]
    (table_oracle [mkTextOff 0 0 5; mkTextOff 0 1 5; mkTextOff 0 2 5;
                   mkTextOff 0 3 5; mkTextOff 0 4 5;
                   mkTextOff 1 0 3; mkTextOff 1 2 3]).

(** The oracle comes back to record 0 after record 1. *)
Definition ebwt_back : Ebwt :=
  mkEbwt [str "r0"; str "r1"] [DnaA; DnaC; DnaG]
    (table_oracle [mkTextOff 0 0 2; mkTextOff 1 0 1; mkTextOff 0 1 2]).

(** The second position reports offset 9 in a record of length 7. *)
Definition ebwt_off_range : Ebwt :=
  mkEbwt [str "r0"; str "r1"] [DnaA; DnaC; DnaG]
    (table_oracle [mkTextOff 0 0 3; mkTextOff 1 9 7; mkTextOff 0 1 3]).

(** A record of length 0 next to an ordinary one. *)
Definition ebwt_empty_record : Ebwt :=
  mkEbwt [str "r0"; str "r1"] [DnaA; DnaC]
    (table_oracle [mkTextOff 0 0 0; mkTextOff 1 0 1]).

Definition ebwt_names : Ebwt :=
  mkEbwt [str "chr1"; str "chr2"] [DnaA] (table_oracle [mkTextOff 0 0 1]).

Definition ebwt_names' : Ebwt :=
  mkEbwt [str "chr1"; str "chr2"] [DnaG; DnaT]
    (table_oracle [mkTextOff 1 0 2; mkTextOff 1 1 2]).

Definition ebwt_no_names : Ebwt := mkEbwt [] [] (table_oracle []).

(** No position belongs to a record. *)
Definition ebwt_unowned : Ebwt :=
  mkEbwt [str "r0"] [DnaA; DnaC] (table_oracle []).

(** The same index with another answer of the oracle at position [p]. *)
Definition set_answer (ebwt : Ebwt) (p : Z) (a : TextOff) : Ebwt :=
  mkEbwt (refnames ebwt) (restore ebwt)
    (fun i => if i =? p then a else joinedToTextOff ebwt i).

(** The index without position [p]: the character is taken out of the
    joined text and the positions after it move down by one. *)
Definition delete_position (ebwt : Ebwt) (p : Z) : Ebwt :=
  mkEbwt (refnames ebwt)
    (firstn (Z.to_nat p) (restore ebwt) ++ skipn (S (Z.to_nat p)) (restore ebwt))
    (fun i => if i <? p then joinedToTextOff ebwt i
              else joinedToTextOff ebwt (i + 1)).

(** Record 0 of length 3 owns offset 0; the last position reports offset 9
    in a record of length 7. *)
Definition ebwt_off_last : Ebwt :=
  mkEbwt [str "r0"; str "r1"] [DnaA; DnaC]
    (table_oracle [mkTextOff 0 0 3; mkTextOff 1 9 7]).

(** The indices [0 .. n-1]. *)
Definition index_range (n : nat) : list Z := map Z.of_nat (seq 0 n).

(** Options that [parseOptions] takes in without leaving the program:
    [-v], [-n], and [-a] with a number of at least 1. *)
Definition accepted (strtol : cstring -> Z * option Z) (opt : Z * cstring) : bool :=
  (fst opt =? code "v") || (fst opt =? code "n") ||
  ((fst opt =? code "a") &&
   match strtol (snd opt) with
   | (l, Some _) => 1 <=? l
   | (_, None) => false
   end).

(** ** Words for further properties *)

(** The characters of a sequence that are not the gap character. *)
Definition real_chars (s : cstring) : cstring :=
  filter (fun c => negb (Ascii.eqb c "N"%char)) s.

(** The characters of the owned positions, in scan order. *)
Fixpoint owned_chars (oracle : Z -> TextOff) (cat : list Dna) (i : Z) : cstring :=
  match cat with
  | [] => []
  | c :: cat' =>
      if owned (oracle i) then dna_char c :: owned_chars oracle cat' (i + 1)
      else owned_chars oracle cat' (i + 1)
  end.

(** The loop of the scan on characters paired with the oracle's answers. *)
Fixpoint scan_pairs (l : list (Dna * TextOff)) (st : scan_state) : scan_state :=
  match l with
  | [] => st
  | (c, a) :: l' => scan_pairs l' (scan_step st c a)
  end.

(** An index without gaps: record [r] owns every one of its offsets, and
    the records follow one another in the joined text. *)
Definition record_answers (r : Z) (s : list Dna) : list TextOff :=
  map (fun j => mkTextOff r (Z.of_nat j) (Z.of_nat (List.length s)))
      (seq 0 (List.length s)).

Fixpoint joined_answers (r : Z) (recs : list (list Dna)) : list TextOff :=
  match recs with
  | [] => []
  | s :: recs' => record_answers r s ++ joined_answers (r + 1) recs'
  end.

Definition ebwt_of_records (names : list cstring) (recs : list (list Dna)) : Ebwt :=
  mkEbwt names (List.concat recs) (table_oracle (joined_answers 0 recs)).

(** Record [r] followed by as many gap characters as the next record is
    longer, and so on. *)
Fixpoint gapless_output (r : Z) (recs : list (list Dna)) : list (Z * cstring) :=
  match recs with
  | [] => []
  | s :: recs' =>
      (r, map dna_char s
            ++ fill (match recs' with
                     | [] => 0
                     | s' :: _ => Z.of_nat (List.length s') - Z.of_nat (List.length s)
                     end) "N"%char)
        :: gapless_output (r + 1) recs'
  end.

(** The records with their identities, unchanged. *)
Fixpoint numbered (r : Z) (recs : list (list Dna)) : list (Z * cstring) :=
  match recs with
  | [] => []
  | s :: recs' => (r, map dna_char s) :: numbered (r + 1) recs'
  end.

(** No record is longer than the one before it. *)
Fixpoint lengths_decrease (recs : list (list Dna)) : Prop :=
  match recs with
  | [] => True
  | s :: recs' =>
      match recs' with
      | [] => True
      | s' :: _ => (List.length s' <= List.length s)%nat
      end /\ lengths_decrease recs'
  end.

Definition has_option (c : ascii) (opts : list (Z * cstring)) : bool :=
  existsb (fun opt => fst opt =? code c) opts.

(** The width left by the last [-a] of [opts], [d] when there is none. *)
Fixpoint last_across (strtol : cstring -> Z * option Z)
    (opts : list (Z * cstring)) (d : Z) : Z :=
  match opts with
  | [] => d
  | opt :: opts' =>
      last_across strtol opts'
        (if fst opt =? code "a" then int32_of_long (fst (strtol (snd opt))) else d)
  end.

(** A record as it stands in the output: the header line with its name,
    then lines of 1 to [W] characters that make up its sequence. *)
Definition fasta_block (names : list cstring) (W : Z) (rs : Z * cstring)
    (block : list cstring) : Prop :=
  exists (name : cstring) (lines : list cstring),
    nth_error names (Z.to_nat (fst rs)) = Some name /\
    block = (">"%char :: name) :: lines /\
    List.concat lines = snd rs /\
    Forall (fun l => 1 <= strlen l <= W) lines.

(** * Properties *)

(** ** Lists and arithmetic *)

Lemma firstn_add_skipn {A} (a b : nat) (l : list A) :
  firstn a l ++ firstn b (skipn a l) = firstn (a + b) l.
Proof.
  revert l; induction a as [|a IH]; intros l; simpl.
  - reflexivity.
  - destruct l as [|x l]; simpl.
    + now rewrite firstn_nil.
    + now rewrite IH.
Qed.

Lemma skipn_add {A} (a b : nat) (l : list A) :
  skipn b (skipn a l) = skipn (a + b) l.
Proof.
  revert l; induction a as [|a IH]; intros l; simpl.
  - reflexivity.
  - destruct l as [|x l]; simpl.
    + now rewrite skipn_nil.
    + apply IH.
Qed.

Lemma size_small (x : Z) : 0 <= x < SIZE_MOD -> x mod SIZE_MOD = x.
Proof. intros H; now apply Z.mod_small. Qed.

Lemma strlen_nonneg (s : cstring) : 0 <= strlen s.
Proof. unfold strlen; lia. Qed.

Lemma strlen_app (s t : cstring) : strlen (s ++ t) = strlen s + strlen t.
Proof. unfold strlen; rewrite length_app; lia. Qed.

Lemma strlen_fill (n : Z) (c : ascii) : 0 <= n -> strlen (fill n c) = n.
Proof. intros H; unfold strlen, fill; rewrite repeat_length; lia. Qed.

(** ** The line wrapper *)

Section Wrap.

Variable W : Z.
Variable seq : cstring.
Hypothesis W_pos : 1 <= W.
Hypothesis no_wrap : strlen seq + W <= SIZE_MOD.

Lemma substr_full_length (i : Z) :
  0 <= i -> i + W < strlen seq -> strlen (substr seq i W) = W.
Proof.
  intros Hi Hlt; unfold substr, strlen in *.
  rewrite length_firstn, length_skipn; lia.
Qed.

(** The loop ends, and the lines it writes are full lines that make up
    the part of [seq] between the first and the last [i]. *)
Lemma fasta_loop_lines (fuel : nat) :
  forall (i : Z) (fout : ostream),
    0 <= i < strlen seq ->
    (Z.to_nat (strlen seq - i) <= fuel)%nat ->
    exists (i' : Z) (lines : list cstring),
      fasta_loop fuel W seq i fout = Some (i', fout ++ lines) /\
      i <= i' < strlen seq /\ strlen seq <= i' + W /\
      List.concat lines = firstn (Z.to_nat (i' - i)) (skipn (Z.to_nat i) seq) /\
      Forall (fun l => strlen l = W) lines.
Proof.
  induction fuel as [|fuel IH]; intros i fout Hi Hfuel.
  - lia.
  - simpl. unfold add_size, size_t_of_int.
    rewrite (size_small W) by lia.
    rewrite (size_small (i + W)) by lia.
    destruct (i + W <? strlen seq) eqn:Htest.
    + apply Z.ltb_lt in Htest.
      destruct (IH (i + W) (put_line fout (substr seq i W)))
        as (i' & lines & Hrun & Hrange & Hlast & Hcat & Hfull); [lia | lia |].
      exists i', (substr seq i W :: lines).
      rewrite Hrun. unfold put_line. rewrite <- app_assoc. simpl.
      repeat split; try lia.
      * rewrite Hcat. unfold substr.
        replace (Z.to_nat (i + W)) with (Z.to_nat i + Z.to_nat W)%nat by lia.
        rewrite <- skipn_add, firstn_add_skipn.
        f_equal; lia.
      * constructor; [apply substr_full_length; lia | exact Hfull].
    + apply Z.ltb_ge in Htest.
      exists i, []. rewrite app_nil_r.
      repeat split; try lia.
      * now rewrite Z.sub_diag.
      * constructor.
Qed.

End Wrap.

(** C7.  With a wrap width [W >= 1] and a non-empty sequence,
    [print_fasta_record] writes the header line and then lines whose
    concatenation is the sequence; each of them but the last has exactly
    [W] characters and the last has between 1 and [W].  The loop needs at
    most [length seq] tests, and [i + across] does not wrap as long as the
    length plus [W] fits in a [size_t]. *)
Theorem print_fasta_record_wraps :
  forall (fuel : nat) (W : Z) (fout : ostream) (defline seq : cstring),
    1 <= W ->
    seq <> [] ->
    strlen seq + W <= SIZE_MOD ->
    (List.length seq <= fuel)%nat ->
    exists (lines : list cstring) (last : cstring),
      print_fasta_record fuel W fout defline seq
        = Some (fout ++ (">"%char :: defline) :: lines ++ [last]) /\
      List.concat (lines ++ [last]) = seq /\
      Forall (fun l => strlen l = W) lines /\
      1 <= strlen last <= W.
Proof.
  intros fuel W fout defline seq HW Hne Hsize Hfuel.
  assert (Hlen : 0 < strlen seq).
  { unfold strlen; destruct seq; [congruence | simpl; lia]. }
  destruct (fasta_loop_lines W seq HW Hsize fuel 0
              (put_line fout (">"%char :: defline)))
    as (i' & lines & Hrun & Hrange & Hlast & Hcat & Hfull).
  { lia. }
  { unfold strlen in *; lia. }
  exists lines, (substr_from seq i').
  unfold print_fasta_record. rewrite Hrun.
  assert (Hi' : (i' <? strlen seq) = true) by (apply Z.ltb_lt; lia).
  rewrite Hi'. unfold put_line.
  repeat split.
  - f_equal. rewrite <- !app_assoc. reflexivity.
  - rewrite concat_app, Hcat. simpl. rewrite app_nil_r.
    unfold substr_from. rewrite Z.sub_0_r. simpl.
    apply firstn_skipn.
  - exact Hfull.
  - unfold substr_from, strlen in *. rewrite length_skipn. lia.
  - unfold substr_from, strlen in *. rewrite length_skipn. lia.
Qed.

Lemma print_fasta_record_wraps_witness :
  1 <= 2 /\ str "ACGTA" <> [] /\ strlen (str "ACGTA") + 2 <= SIZE_MOD /\
  (List.length (str "ACGTA") <= 5)%nat /\
  exists (lines : list cstring) (last : cstring),
    print_fasta_record 5 2 [] (str "r0") (str "ACGTA")
      = Some ([] ++ (">"%char :: str "r0") :: lines ++ [last]) /\
    List.concat (lines ++ [last]) = str "ACGTA" /\
    Forall (fun l => strlen l = 2) lines /\
    1 <= strlen last <= 2.
Proof.
  assert (H1 : 1 <= 2) by lia.
  assert (H2 : str "ACGTA" <> []) by discriminate.
  assert (H3 : strlen (str "ACGTA") + 2 <= SIZE_MOD) by (vm_compute; discriminate).
  assert (H4 : (List.length (str "ACGTA") <= 5)%nat) by (simpl; lia).
  repeat split; try assumption.
  exact (print_fasta_record_wraps 5 2 [] (str "r0") (str "ACGTA") H1 H2 H3 H4).
Defined.

(** ** The name lister *)

(** With at least [bound - i] entries left, the loop reads them one after
    the other and stops at the bound. *)
Lemma names_loop_done (n : nat) :
  forall (tail : list cstring) (i bound : Z) (fout : ostream) (reads : list Z),
    0 <= i ->
    bound = i + Z.of_nat n ->
    bound < SIZE_MOD ->
    (n <= List.length tail)%nat ->
    names_loop tail i bound fout reads
      = NamesDone (fout ++ firstn n tail)
                  (reads ++ map Z.of_nat (seq (Z.to_nat i) n)).
Proof.
  induction n as [|n IH]; intros tail i bound fout reads Hi Hb Hmax Hlen.
  - assert (Htest : (i <? bound) = false) by (apply Z.ltb_ge; lia).
    destruct tail; simpl; rewrite Htest, !app_nil_r; reflexivity.
  - assert (Htest : (i <? bound) = true) by (apply Z.ltb_lt; lia).
    destruct tail as [|name tail]; [simpl in Hlen; lia|].
    simpl names_loop. rewrite Htest.
    unfold add_size. rewrite (size_small (i + 1)) by lia.
    rewrite (IH tail (i + 1) bound); [| lia | lia | lia | simpl in Hlen; lia].
    unfold put_line. rewrite <- !app_assoc. simpl.
    replace (Z.to_nat (i + 1)) with (S (Z.to_nat i)) by lia.
    rewrite Z2Nat.id by lia. reflexivity.
Qed.

Lemma firstn_removelast {A} (l : list A) :
  firstn (List.length l - 1) l = removelast l.
Proof.
  induction l as [|x l IH]; [reflexivity|].
  destruct l as [|y l]; [reflexivity|].
  replace (List.length (x :: y :: l) - 1)%nat
    with (S (List.length (y :: l) - 1)) by (simpl; lia).
  change (removelast (x :: y :: l)) with (x :: removelast (y :: l)).
  rewrite <- IH. reflexivity.
Qed.

Lemma index_range_in_bounds (n : nat) :
  Forall (fun i => 0 <= i < Z.of_nat n) (index_range n).
Proof.
  unfold index_range. apply Forall_forall. intros i Hi.
  apply in_map_iff in Hi. destruct Hi as (k & <- & Hk).
  apply in_seq in Hk. lia.
Qed.

Lemma names_bound_nonempty (names : list cstring) :
  names <> [] ->
  Z.of_nat (List.length names) < SIZE_MOD ->
  names_bound names = Z.of_nat (List.length names - 1).
Proof.
  intros Hne Hsz. unfold names_bound, sub_size.
  destruct names as [|x names]; [congruence|].
  rewrite size_small; simpl List.length in *; lia.
Qed.

Lemma print_names_nonempty (fout : ostream) (ebwt : Ebwt) :
  refnames ebwt <> [] ->
  Z.of_nat (List.length (refnames ebwt)) < SIZE_MOD ->
  print_index_sequence_names fout ebwt
    = NamesDone (fout ++ all_but_last (refnames ebwt))
                (index_range (List.length (refnames ebwt) - 1)).
Proof.
  intros Hne Hsz. unfold print_index_sequence_names.
  rewrite (names_loop_done (List.length (refnames ebwt) - 1)); try lia.
  - rewrite firstn_removelast. reflexivity.
  - rewrite names_bound_nonempty by assumption. lia.
  - rewrite names_bound_nonempty by assumption. lia.
Qed.

Lemma print_names_empty (fout : ostream) (ebwt : Ebwt) :
  refnames ebwt = [] ->
  print_index_sequence_names fout ebwt = NamesOutOfBounds 0 fout [].
Proof.
  intros He. unfold print_index_sequence_names. rewrite He. reflexivity.
Qed.

(** C10.  For a non-empty [refnames] the loop reads the entries at the
    indices 0 to [size - 2], all inside the vector, and writes them; for
    an empty [refnames] the bound [size() - 1] wraps to [2^64 - 1] and the
    first read, at index 0, is outside the vector. *)
Theorem names_reads_need_nonempty :
  forall (fout : ostream) (ebwt : Ebwt),
    Z.of_nat (List.length (refnames ebwt)) < SIZE_MOD ->
    match refnames ebwt with
    | [] =>
        names_bound (refnames ebwt) = SIZE_MOD - 1 /\
        print_index_sequence_names fout ebwt = NamesOutOfBounds 0 fout []
    | _ :: _ =>
        print_index_sequence_names fout ebwt
          = NamesDone (fout ++ all_but_last (refnames ebwt))
                      (index_range (List.length (refnames ebwt) - 1)) /\
        index_range (List.length (refnames ebwt) - 1)
          = map Z.of_nat (seq 0 (List.length (refnames ebwt) - 1)) /\
        Forall (fun i => 0 <= i < Z.of_nat (List.length (refnames ebwt)))
               (index_range (List.length (refnames ebwt) - 1))
    end.
Proof.
  intros fout ebwt Hsz.
  destruct (refnames ebwt) as [|name names] eqn:Hnames.
  - split; [reflexivity|].
    now apply print_names_empty.
  - rewrite <- Hnames in *. split; [|split].
    + apply print_names_nonempty; [rewrite Hnames; discriminate | exact Hsz].
    + reflexivity.
    + eapply Forall_impl; [|apply index_range_in_bounds].
      simpl. intros i Hi. lia.
Qed.

Lemma names_reads_need_nonempty_witness :
  (Z.of_nat (List.length (refnames ebwt_names)) < SIZE_MOD /\
   print_index_sequence_names [] ebwt_names = NamesDone [str "chr1"] [0]) /\
  (Z.of_nat (List.length (refnames ebwt_no_names)) < SIZE_MOD /\
   names_bound (refnames ebwt_no_names) = 18446744073709551615 /\
   print_index_sequence_names [] ebwt_no_names = NamesOutOfBounds 0 [] []).
Proof.
  assert (H1 : Z.of_nat (List.length (refnames ebwt_names)) < SIZE_MOD)
    by (vm_compute; reflexivity).
  assert (H2 : Z.of_nat (List.length (refnames ebwt_no_names)) < SIZE_MOD)
    by (vm_compute; reflexivity).
  split; split; try assumption.
  - exact (proj1 (names_reads_need_nonempty [] ebwt_names H1)).
  - exact (names_reads_need_nonempty [] ebwt_no_names H2).
Defined.

(** C4, amended.  With [names_only] set, [driver] does not look at the
    joined text or at the oracle: two indexes with the same [refnames]
    give the same result, whatever else they hold.  For a non-empty
    [refnames] the output is its labels except the last one, in order, one
    per line. *)
Theorem names_only_lists_all_but_last :
  forall (load1 load2 : cstring -> Ebwt) (fuel1 fuel2 : nat) (o : Options)
         (file : cstring) (io : streams),
    names_only o = true ->
    refnames (load1 file) = refnames (load2 file) ->
    Z.of_nat (List.length (refnames (load1 file))) < SIZE_MOD ->
    driver load1 fuel1 o file io = driver load2 fuel2 o file io /\
    driver load1 fuel1 o file io =
      match refnames (load1 file) with
      | [] => Undefined
      | _ :: _ =>
          Ok tt (mkStreams (cout io ++ all_but_last (refnames (load1 file)))
                           (cerr io))
      end.
Proof.
  intros load1 load2 fuel1 fuel2 o file io Hn Hsame Hsz.
  unfold driver. rewrite Hn.
  destruct (refnames (load1 file)) as [|name names] eqn:Hnames.
  - rewrite (print_names_empty _ (load1 file)) by assumption.
    rewrite (print_names_empty _ (load2 file)) by congruence.
    split; reflexivity.
  - rewrite (print_names_nonempty _ (load1 file));
      [| rewrite Hnames; discriminate | rewrite Hnames; exact Hsz].
    rewrite (print_names_nonempty _ (load2 file));
      [| rewrite <- Hsame; discriminate | rewrite <- Hsame; exact Hsz].
    rewrite <- Hsame, Hnames. split; reflexivity.
Qed.

Lemma names_only_lists_all_but_last_witness :
  names_only (mkOptions false true 60) = true /\
  refnames ebwt_names = refnames ebwt_names' /\
  Z.of_nat (List.length (refnames ebwt_names)) < SIZE_MOD /\
  driver (fun _ => ebwt_names) 0 (mkOptions false true 60) (str "idx") no_output
    = driver (fun _ => ebwt_names') 7 (mkOptions false true 60) (str "idx") no_output /\
  driver (fun _ => ebwt_names) 0 (mkOptions false true 60) (str "idx") no_output
    = Ok tt (mkStreams [str "chr1"] []).
Proof.
  assert (H1 : names_only (mkOptions false true 60) = true) by reflexivity.
  assert (H2 : refnames ebwt_names = refnames ebwt_names') by reflexivity.
  assert (H3 : Z.of_nat (List.length (refnames ebwt_names)) < SIZE_MOD)
    by (vm_compute; reflexivity).
  split; [exact H1 | split; [exact H2 | split; [exact H3 | split]]].
  - exact (proj1 (names_only_lists_all_but_last
                    (fun _ => ebwt_names) (fun _ => ebwt_names') 0 7
                    (mkOptions false true 60) (str "idx") no_output H1 H2 H3)).
  - exact (proj2 (names_only_lists_all_but_last
                    (fun _ => ebwt_names) (fun _ => ebwt_names') 0 7
                    (mkOptions false true 60) (str "idx") no_output H1 H2 H3)).
Defined.

(** C4 as written fails: with the labels [chr1] and [chr2] the output is
    [chr1] alone, not the list of all labels. *)
Lemma names_only_omits_last_label :
  driver (fun _ => ebwt_names) 0 (mkOptions false true 60) (str "idx") no_output
    = Ok tt (mkStreams [str "chr1"] []) /\
  [str "chr1"] <> refnames ebwt_names.
Proof.
  split; [reflexivity | discriminate].
Qed.

(** ** The scan: which identities are yielded *)

Lemma owned_not_noref (a : TextOff) : owned a = true -> to_tidx a <> NOREF.
Proof.
  unfold owned. intros H. apply andb_prop in H. destruct H as [H _].
  apply negb_true_iff, Z.eqb_neq in H. exact H.
Qed.

Lemma owned_offset_below_length (a : TextOff) :
  owned a = true -> to_textoff a < to_tlen a.
Proof.
  unfold owned. intros H. apply andb_prop in H. destruct H as [_ H].
  now apply Z.ltb_lt.
Qed.

Lemma scan_step_not_owned (st : scan_state) (c : Dna) (a : TextOff) :
  owned a = false ->
  scan_step st c a
    = mkScan (curr_ref st) (curr_ref_seq st) (last_text_off st) (to_tlen a)
             (yielded st).
Proof. intros H. unfold scan_step. now rewrite H. Qed.

Lemma scan_step_owned_ref (st : scan_state) (c : Dna) (a : TextOff) :
  owned a = true -> curr_ref (scan_step st c a) = to_tidx a.
Proof.
  intros H. unfold scan_step, switch_ref. rewrite H.
  destruct (curr_ref st =? to_tidx a) eqn:E; simpl; [|reflexivity].
  now apply Z.eqb_eq.
Qed.

Lemma scan_step_owned_ids (st : scan_state) (c : Dna) (a : TextOff) :
  owned a = true ->
  map fst (yielded (scan_step st c a))
    = map fst (yielded st)
        ++ (if curr_ref st =? to_tidx a then []
            else if curr_ref st =? NOREF then [] else [curr_ref st]).
Proof.
  intros H. unfold scan_step, switch_ref. rewrite H.
  destruct (curr_ref st =? to_tidx a); simpl.
  - now rewrite app_nil_r.
  - destruct (curr_ref st =? NOREF); simpl.
    + now rewrite app_nil_r.
    + rewrite map_app. reflexivity.
Qed.

(** The identities yielded during the loop and the one current at its end
    are those of [closed_ids] and [last_id] on the owned positions. *)
Lemma scan_loop_ids (o : Z -> TextOff) (cat : list Dna) :
  forall (i : Z) (st : scan_state),
    map fst (yielded (scan_loop o cat i st))
      = map fst (yielded st)
          ++ closed_ids (curr_ref st)
               (map to_tidx (filter owned (answers o cat i))) /\
    curr_ref (scan_loop o cat i st)
      = last_id (curr_ref st) (map to_tidx (filter owned (answers o cat i))).
Proof.
  induction cat as [|c cat IH]; intros i st; simpl.
  - now rewrite app_nil_r.
  - destruct (IH (i + 1) (scan_step st c (o i))) as [IHy IHc].
    rewrite IHy, IHc. clear IHy IHc IH.
    destruct (owned (o i)) eqn:Hown; simpl.
    + rewrite scan_step_owned_ids, scan_step_owned_ref by assumption.
      destruct (curr_ref st =? to_tidx (o i)) eqn:E.
      * apply Z.eqb_eq in E. rewrite E, app_nil_r. split; reflexivity.
      * rewrite <- app_assoc. split; reflexivity.
    + rewrite scan_step_not_owned by assumption. simpl. split; reflexivity.
Qed.

Lemma closed_ids_in (ids : list Z) :
  forall (cur r : Z),
    In r (closed_ids cur ids) -> (r = cur /\ cur <> NOREF) \/ In r ids.
Proof.
  induction ids as [|x ids IH]; intros cur r Hin; simpl in *.
  - contradiction.
  - destruct (cur =? x) eqn:E.
    + apply Z.eqb_eq in E. subst x.
      destruct (IH _ _ Hin) as [H|H]; [left; exact H | right; right; exact H].
    + apply in_app_or in Hin. destruct Hin as [Hin|Hin].
      * destruct (cur =? NOREF) eqn:E2; [contradiction|].
        apply Z.eqb_neq in E2. destruct Hin as [<-|[]]. left. split; auto.
      * destruct (IH _ _ Hin) as [[-> _]|H]; right; [left; reflexivity | right; exact H].
Qed.

Lemma last_id_in (ids : list Z) :
  forall cur : Z, last_id cur ids = cur \/ In (last_id cur ids) ids.
Proof.
  induction ids as [|x ids IH]; intros cur; simpl.
  - left; reflexivity.
  - right. destruct (IH x) as [->|H]; [left; reflexivity | right; exact H].
Qed.

Lemma last_id_nil_iff (ids : list Z) (cur : Z) :
  ids <> [] -> In (last_id cur ids) ids.
Proof.
  destruct ids as [|x ids]; [congruence|]. intros _. simpl.
  destruct (last_id_in ids x) as [->|H]; [left; reflexivity | right; exact H].
Qed.

(** Every identity handed to [print_fasta_record] is the identity of an
    owned position, when [0xffffffff] is not an index of [refnames]. *)
Lemma reconstruct_ids_owned (ebwt : Ebwt) (r : Z) :
  Z.of_nat (List.length (refnames ebwt)) <= NOREF ->
  In r (map fst (reconstruct ebwt)) -> In r (owned_ids ebwt).
Proof.
  intros Hsz Hin. unfold reconstruct, scan_finish in Hin.
  destruct (scan_loop_ids (joinedToTextOff ebwt) (restore ebwt) 0 scan_init)
    as [Hy Hc].
  fold (scan_answers ebwt) in Hy, Hc. fold (owned_ids ebwt) in Hy, Hc.
  simpl in Hy, Hc.
  set (fin := scan_loop (joinedToTextOff ebwt) (restore ebwt) 0 scan_init) in *.
  assert (Hclosed : In r (map fst (yielded fin)) -> In r (owned_ids ebwt)).
  { rewrite Hy. intros H. apply closed_ids_in in H.
    destruct H as [[_ H]|H]; [congruence | exact H]. }
  destruct (curr_ref fin <? Z.of_nat (List.length (refnames ebwt))) eqn:E.
  - rewrite map_app in Hin. apply in_app_or in Hin.
    destruct Hin as [Hin|Hin]; [auto|].
    simpl in Hin. destruct Hin as [<-|[]].
    apply Z.ltb_lt in E.
    destruct (last_id_in (owned_ids ebwt) NOREF) as [H|H].
    + rewrite <- Hc in H. lia.
    + now rewrite Hc.
  - auto.
Qed.

Lemma owned_ids_in (ebwt : Ebwt) (r : Z) :
  In r (owned_ids ebwt) ->
  exists a, In a (scan_answers ebwt) /\ to_tidx a = r /\ owned a = true.
Proof.
  unfold owned_ids. intros H. apply in_map_iff in H.
  destruct H as (a & Ha & Hin). apply filter_In in Hin.
  exists a. tauto.
Qed.

(** C9.  When [0xffffffff] is not an index of [refnames] and offsets are
    unsigned: a record whose reported length is 0, or none of whose
    positions is owned, is never handed to [print_fasta_record]; and when
    no position is owned nothing is. *)
Theorem unowned_records_not_yielded :
  forall ebwt : Ebwt,
    Z.of_nat (List.length (refnames ebwt)) <= NOREF ->
    Forall (fun a => 0 <= to_textoff a) (scan_answers ebwt) ->
    (forall r : Z,
        (forall a, In a (scan_answers ebwt) -> to_tidx a = r -> to_tlen a = 0) ->
        ~ In r (map fst (reconstruct ebwt))) /\
    (forall r : Z,
        (forall a, In a (scan_answers ebwt) -> to_tidx a = r -> owned a = false) ->
        ~ In r (map fst (reconstruct ebwt))) /\
    ((forall a, In a (scan_answers ebwt) -> owned a = false) ->
     reconstruct ebwt = []).
Proof.
  intros ebwt Hsz Hoff.
  assert (Hnone : forall r : Z,
             (forall a, In a (scan_answers ebwt) -> to_tidx a = r -> owned a = false) ->
             ~ In r (map fst (reconstruct ebwt))).
  { intros r Hr Hin. apply reconstruct_ids_owned in Hin; [|exact Hsz].
    apply owned_ids_in in Hin. destruct Hin as (a & Ha & Hid & Hown).
    rewrite (Hr a Ha Hid) in Hown. discriminate. }
  split; [|split].
  - intros r Hzero. apply Hnone. intros a Ha Hid.
    destruct (owned a) eqn:Hown; [|reflexivity].
    apply owned_offset_below_length in Hown.
    rewrite (Hzero a Ha Hid) in Hown.
    rewrite Forall_forall in Hoff. specialize (Hoff a Ha). lia.
  - exact Hnone.
  - intros Hall. destruct (reconstruct ebwt) as [|[r s] l] eqn:E; [reflexivity|].
    exfalso. apply (Hnone r).
    + intros a Ha _. now apply Hall.
    + left. reflexivity.
Qed.

Lemma unowned_records_not_yielded_witness :
  (Z.of_nat (List.length (refnames ebwt_empty_record)) <= NOREF /\
   Forall (fun a => 0 <= to_textoff a) (scan_answers ebwt_empty_record) /\
   (forall a, In a (scan_answers ebwt_empty_record) -> to_tidx a = 0 -> to_tlen a = 0) /\
   ~ In 0 (map fst (reconstruct ebwt_empty_record))) /\
  (Z.of_nat (List.length (refnames ebwt_unowned)) <= NOREF /\
   Forall (fun a => 0 <= to_textoff a) (scan_answers ebwt_unowned) /\
   (forall a, In a (scan_answers ebwt_unowned) -> owned a = false) /\
   reconstruct ebwt_unowned = []).
Proof.
  assert (H1 : Z.of_nat (List.length (refnames ebwt_empty_record)) <= NOREF)
    by (vm_compute; discriminate).
  assert (H2 : Forall (fun a => 0 <= to_textoff a) (scan_answers ebwt_empty_record)).
  { repeat constructor; simpl; lia. }
  assert (H3 : forall a, In a (scan_answers ebwt_empty_record) ->
                         to_tidx a = 0 -> to_tlen a = 0).
  { intros a [<-|[<-|[]]]; simpl; [reflexivity | discriminate]. }
  assert (H4 : Z.of_nat (List.length (refnames ebwt_unowned)) <= NOREF)
    by (vm_compute; discriminate).
  assert (H5 : Forall (fun a => 0 <= to_textoff a) (scan_answers ebwt_unowned)).
  { repeat constructor; vm_compute; discriminate. }
  assert (H6 : forall a, In a (scan_answers ebwt_unowned) -> owned a = false).
  { intros a [<-|[<-|[]]]; reflexivity. }
  split.
  - split; [exact H1 | split; [exact H2 | split; [exact H3 |]]].
    exact (proj1 (unowned_records_not_yielded ebwt_empty_record H1 H2) 0 H3).
  - split; [exact H4 | split; [exact H5 | split; [exact H6 |]]].
    exact (proj2 (proj2 (unowned_records_not_yielded ebwt_unowned H4 H5)) H6).
Defined.

(** ** The scan: order of the yielded identities *)

Lemma closed_then_last_is_runs (ids : list Z) :
  forall cur : Z,
    cur <> NOREF ->
    Forall (fun r => r <> NOREF) ids ->
    closed_ids cur ids ++ [last_id cur ids] = runs_from cur ids.
Proof.
  induction ids as [|x ids IH]; intros cur Hcur Hids; simpl.
  - reflexivity.
  - inversion Hids as [|? ? Hx Hrest]; subst.
    destruct (cur =? x) eqn:E.
    + apply Z.eqb_eq in E. subst x. now apply IH.
    + destruct (cur =? NOREF) eqn:E2; [apply Z.eqb_eq in E2; congruence|].
      simpl. f_equal. now apply IH.
Qed.

Lemma owned_ids_not_noref (ebwt : Ebwt) :
  Forall (fun r => r <> NOREF) (owned_ids ebwt).
Proof.
  apply Forall_forall. intros r Hr. apply owned_ids_in in Hr.
  destruct Hr as (a & _ & <- & Hown). now apply owned_not_noref.
Qed.

(** What the code does for any oracle whose identities index [refnames]:
    one record per maximal run of owned positions with the same identity. *)
Lemma reconstruct_ids_runs (ebwt : Ebwt) :
  Z.of_nat (List.length (refnames ebwt)) <= NOREF ->
  Forall (fun r => r < Z.of_nat (List.length (refnames ebwt))) (owned_ids ebwt) ->
  map fst (reconstruct ebwt) = run_heads (owned_ids ebwt).
Proof.
  intros Hsz Hvalid. unfold reconstruct, scan_finish.
  destruct (scan_loop_ids (joinedToTextOff ebwt) (restore ebwt) 0 scan_init)
    as [Hy Hc].
  fold (scan_answers ebwt) in Hy, Hc. fold (owned_ids ebwt) in Hy, Hc.
  simpl in Hy, Hc.
  set (fin := scan_loop (joinedToTextOff ebwt) (restore ebwt) 0 scan_init) in *.
  pose proof (owned_ids_not_noref ebwt) as Hnn.
  destruct (owned_ids ebwt) as [|x ids] eqn:Hids.
  - simpl in Hy, Hc. rewrite Hc.
    assert (E : (NOREF <? Z.of_nat (List.length (refnames ebwt))) = false)
      by (apply Z.ltb_ge; lia).
    rewrite E, Hy. reflexivity.
  - assert (Hlast : In (curr_ref fin) (x :: ids)).
    { rewrite Hc. apply last_id_nil_iff. discriminate. }
    rewrite Forall_forall in Hvalid. apply Hvalid in Hlast.
    apply Z.ltb_lt in Hlast. rewrite Hlast.
    rewrite map_app, Hy. simpl map. rewrite Hc.
    inversion Hnn as [|? ? Hx Hrest]; subst.
    cbn [closed_ids last_id run_heads].
    assert (E : (NOREF =? x) = false) by (apply Z.eqb_neq; congruence).
    rewrite E, Z.eqb_refl. cbn [app].
    now apply closed_then_last_is_runs.
Qed.

Lemma runs_from_head (ids : list Z) :
  forall cur : Z, runs_from cur ids = cur :: tl (runs_from cur ids).
Proof.
  induction ids as [|x ids IH]; intros cur; simpl.
  - reflexivity.
  - destruct (cur =? x); [apply IH | reflexivity].
Qed.

Lemma mem_false_iff (x : Z) (l : list Z) : mem x l = false <-> ~ In x l.
Proof.
  unfold mem. split.
  - intros H Hin. assert (Ht : existsb (Z.eqb x) l = true).
    { apply existsb_exists. exists x. split; [exact Hin | apply Z.eqb_refl]. }
    congruence.
  - intros H. destruct (existsb (Z.eqb x) l) eqn:E; [|reflexivity].
    apply existsb_exists in E. destruct E as (y & Hy & Exy).
    apply Z.eqb_eq in Exy. subst y. contradiction.
Qed.

Lemma mem_head (x : Z) (l : list Z) : mem x (x :: l) = true.
Proof. unfold mem. simpl. now rewrite Z.eqb_refl. Qed.

(** When no identity comes back after its run has ended, the runs are
    the identities in the order of their first occurrence. *)
Lemma runs_are_first_seen (ids : list Z) :
  forall (cur : Z) (seen : list Z),
    NoDup (seen ++ runs_from cur ids) ->
    first_seen (cur :: seen) ids = tl (runs_from cur ids).
Proof.
  induction ids as [|x ids IH]; intros cur seen Hnd; cbn [first_seen runs_from].
  - reflexivity.
  - cbn [runs_from] in Hnd. destruct (cur =? x) eqn:E.
    + apply Z.eqb_eq in E. subst x. rewrite mem_head. now apply IH.
    + apply Z.eqb_neq in E.
      assert (Hnd' : NoDup ((cur :: seen) ++ runs_from x ids)).
      { simpl. eapply Permutation_NoDup; [|exact Hnd].
        apply Permutation_sym, Permutation_middle. }
      assert (Hx : mem x (cur :: seen) = false).
      { apply mem_false_iff. intros Hin.
        rewrite runs_from_head in Hnd'.
        apply NoDup_remove_2 in Hnd'. apply Hnd'.
        apply in_or_app. left. exact Hin. }
      rewrite Hx. cbn [tl]. rewrite (runs_from_head ids x).
      f_equal. now apply IH.
Qed.

Lemma run_heads_first_seen (ids : list Z) :
  NoDup (run_heads ids) -> run_heads ids = first_seen [] ids.
Proof.
  destruct ids as [|x ids]; intros Hnd; simpl in *.
  - reflexivity.
  - rewrite (runs_are_first_seen ids x []) by exact Hnd.
    apply runs_from_head.
Qed.

(** C5, amended.  When the identities reported by the oracle index
    [refnames] and no identity comes back after a different one has been
    owned (each record's owned positions are consecutive among the owned
    positions), the records are handed to [print_fasta_record] in the
    order of their first owned position, each of them once. *)
Theorem yielded_in_first_owned_order :
  forall ebwt : Ebwt,
    Z.of_nat (List.length (refnames ebwt)) <= NOREF ->
    Forall (fun r => r < Z.of_nat (List.length (refnames ebwt))) (owned_ids ebwt) ->
    NoDup (run_heads (owned_ids ebwt)) ->
    map fst (reconstruct ebwt) = first_seen [] (owned_ids ebwt) /\
    NoDup (map fst (reconstruct ebwt)).
Proof.
  intros ebwt Hsz Hvalid Hnd.
  rewrite (reconstruct_ids_runs ebwt Hsz Hvalid).
  split; [now apply run_heads_first_seen | exact Hnd].
Qed.

Lemma yielded_in_first_owned_order_witness :
  Z.of_nat (List.length (refnames ebwt_5_3)) <= NOREF /\
  Forall (fun r => r < Z.of_nat (List.length (refnames ebwt_5_3))) (owned_ids ebwt_5_3) /\
  NoDup (run_heads (owned_ids ebwt_5_3)) /\
  map fst (reconstruct ebwt_5_3) = [0; 1] /\
  NoDup (map fst (reconstruct ebwt_5_3)).
Proof.
  assert (H1 : Z.of_nat (List.length (refnames ebwt_5_3)) <= NOREF)
    by (vm_compute; discriminate).
  assert (H2 : Forall (fun r => r < Z.of_nat (List.length (refnames ebwt_5_3)))
                      (owned_ids ebwt_5_3)).
  { repeat constructor. }
  assert (H3 : NoDup (run_heads (owned_ids ebwt_5_3))).
  { change (NoDup [0; 1]). repeat constructor; simpl; intuition discriminate. }
  split; [exact H1 | split; [exact H2 | split; [exact H3 |]]].
  exact (yielded_in_first_owned_order ebwt_5_3 H1 H2 H3).
Defined.

(** C5 as written fails for an oracle that comes back to record 0 after
    record 1: record 0 is handed out twice. *)
Lemma closed_record_reopened :
  owned_ids ebwt_back = [0; 1; 0] /\
  map fst (reconstruct ebwt_back) = [0; 1; 0] /\
  first_seen [] (owned_ids ebwt_back) = [0; 1] /\
  ~ NoDup (map fst (reconstruct ebwt_back)).
Proof.
  split; [reflexivity | split; [reflexivity | split; [reflexivity |]]].
  change (~ NoDup [0; 1; 0]). intros H.
  inversion H as [|? ? Hin _]; subst. apply Hin. right. left. reflexivity.
Qed.

(** ** The scan: positions that are not owned *)

Lemma off_range_not_owned (a : TextOff) :
  to_tlen a <= to_textoff a -> owned a = false.
Proof.
  intros H. unfold owned.
  assert (E : (to_textoff a <? to_tlen a) = false) by (apply Z.ltb_ge; lia).
  rewrite E. apply andb_false_r.
Qed.

(** The step does not look at the [tlen] left by the step before. *)
Lemma scan_step_forgets_tlen (st : scan_state) (t : Z) (c : Dna) (a : TextOff) :
  scan_step (mkScan (curr_ref st) (curr_ref_seq st) (last_text_off st) t (yielded st)) c a
    = scan_step st c a.
Proof. reflexivity. Qed.

(** A position that is not owned and is not the last one of the scan has
    no effect at all, whatever [tlen] the oracle reports for it. *)
Lemma scan_loop_skips_not_owned (o : Z -> TextOff) (c c' : Dna) (cat : list Dna)
    (i : Z) (st : scan_state) :
  owned (o i) = false ->
  scan_loop o (c :: c' :: cat) i st = scan_loop o (c' :: cat) (i + 1) st.
Proof.
  intros H. simpl. rewrite (scan_step_not_owned st c (o i) H).
  now rewrite scan_step_forgets_tlen.
Qed.

Lemma scan_loop_ext_from (o1 o2 : Z -> TextOff) (cat : list Dna) :
  forall (i : Z) (st : scan_state),
    (forall j, i <= j -> o1 j = o2 j) ->
    scan_loop o1 cat i st = scan_loop o2 cat i st.
Proof.
  induction cat as [|c cat IH]; intros i st Hsame; simpl.
  - reflexivity.
  - rewrite (Hsame i) by lia. apply IH. intros j Hj. apply Hsame. lia.
Qed.

Lemma scan_loop_ignores_not_owned (o : Z -> TextOff) (p : Z) (a' : TextOff) :
  owned (o p) = false -> owned a' = false ->
  forall (cat : list Dna) (i : Z) (st : scan_state),
    i <= p ->
    (Z.to_nat (p - i) + 1 < List.length cat)%nat ->
    scan_loop (fun j => if j =? p then a' else o j) cat i st
      = scan_loop o cat i st.
Proof.
  intros Hp Ha'. induction cat as [|c cat IH]; intros i st Hi Hlen.
  - simpl in Hlen. lia.
  - destruct (Z.eq_dec i p) as [->|Hne].
    + destruct cat as [|c' cat]; [simpl in Hlen; lia|].
      rewrite scan_loop_skips_not_owned by (now rewrite Z.eqb_refl).
      rewrite (scan_loop_skips_not_owned o) by exact Hp.
      apply scan_loop_ext_from. intros j Hj.
      assert (E : (j =? p) = false) by (apply Z.eqb_neq; lia).
      now rewrite E.
    + cbn [scan_loop].
      assert (E : (i =? p) = false) by (now apply Z.eqb_neq).
      rewrite E. apply IH; [lia|].
      cbn [List.length] in Hlen. lia.
Qed.

(** A position that is not owned and is followed by another position can
    be given any other answer that is not owned, the sentinel answer
    included, without changing the records. *)
Lemma reconstruct_ignores_not_owned (ebwt : Ebwt) (p : Z) (a' : TextOff) :
  0 <= p ->
  p + 1 < Z.of_nat (List.length (restore ebwt)) ->
  owned (joinedToTextOff ebwt p) = false ->
  owned a' = false ->
  reconstruct (set_answer ebwt p a') = reconstruct ebwt.
Proof.
  intros Hp Hlast Hown Ha'. unfold reconstruct.
  cbn [set_answer refnames restore joinedToTextOff].
  f_equal. apply scan_loop_ignores_not_owned; try assumption. lia.
Qed.

(** C6 (defect of the code).  The last position of the joined text is
    reported with the identity 1 and the offset 9 in a record of length 7.
    The test of line 150 rejects it, but the padding after the loop reads
    the [tlen] it left: record 0, of length 3, is handed out with 7
    characters, against 3 for the same index without that position. *)
Theorem off_range_last_position_pads_record :
  joinedToTextOff ebwt_off_last 1 = mkTextOff 1 9 7 /\
  owned (joinedToTextOff ebwt_off_last 1) = false /\
  reconstruct ebwt_off_last = [(0, str "ANNNNNN")] /\
  reconstruct (delete_position ebwt_off_last 1) = [(0, str "ANN")].
Proof. repeat split. Qed.

(** ** The scan: gaps and padding *)

Lemma add_trailing_gaps_length (t : Z) (s : cstring) :
  strlen (add_trailing_gaps t s) = Z.max t (strlen s).
Proof.
  unfold add_trailing_gaps. destruct (strlen s <? t) eqn:E.
  - apply Z.ltb_lt in E. rewrite strlen_app, strlen_fill; lia.
  - apply Z.ltb_ge in E. lia.
Qed.

(** After a previous offset other than 0 the gap has the skipped
    positions' size. *)
Lemma add_gap_after_nonzero (textoff last : Z) (s : cstring) :
  0 < last -> last + 1 < textoff < UINT32_MOD ->
  add_gap textoff last s = s ++ fill (textoff - last - 1) "N"%char.
Proof.
  intros Hl Ht. unfold add_gap, sub32.
  rewrite (Z.mod_small (textoff - last)) by lia.
  assert (E1 : (1 <? textoff - last) = true) by (apply Z.ltb_lt; lia).
  assert (E2 : (last =? 0) = false) by (apply Z.eqb_neq; lia).
  rewrite E1, E2. rewrite Z.mod_small by lia. reflexivity.
Qed.

(** With [last_text_off = 0], which is both "no offset yet" and "the
    offset before was 0", the gap has [textoff] characters. *)
Lemma add_gap_after_zero (textoff : Z) (s : cstring) :
  1 < textoff < UINT32_MOD ->
  add_gap textoff 0 s = s ++ fill textoff "N"%char.
Proof.
  intros Ht. unfold add_gap, sub32.
  rewrite Z.sub_0_r. rewrite (Z.mod_small textoff) by lia.
  assert (E1 : (1 <? textoff) = true) by (apply Z.ltb_lt; lia).
  rewrite E1. cbn [Z.eqb]. rewrite Z.sub_0_r, Z.mod_small by lia. reflexivity.
Qed.

(** No gap is put before offset 1 at the start of a record. *)
Lemma add_gap_first_offset_one (s : cstring) : add_gap 1 0 s = s.
Proof. reflexivity. Qed.

(** Closing a record on a change of identity pads it to the length that
    the oracle has just reported, which is that of the record that starts. *)
Lemma switch_ref_pads_to_reported_length (st : scan_state) (tidx tlen' : Z) :
  curr_ref st <> NOREF -> curr_ref st <> tidx ->
  yielded (switch_ref st tidx tlen')
    = yielded st ++ [(curr_ref st, add_trailing_gaps tlen' (curr_ref_seq st))].
Proof.
  intros H1 H2. unfold switch_ref.
  apply Z.eqb_neq in H1, H2. rewrite H1, H2. reflexivity.
Qed.

(** The record of length 20 with the offsets 0,1,2,7,8,15 owned, for any
    characters: they stand at their offsets and [N] fills the other 14. *)
Lemma gap20_layout (name : cstring) (c0 c1 c2 c7 c8 c15 : Dna) :
  reconstruct (ebwt_gap20_of name c0 c1 c2 c7 c8 c15)
    = [(0, [dna_char c0; dna_char c1; dna_char c2]
             ++ fill 4 "N"%char ++ [dna_char c7; dna_char c8]
             ++ fill 6 "N"%char ++ [dna_char c15] ++ fill 4 "N"%char)].
Proof. reflexivity. Qed.

(** C1 (defect of the code).  One record of reported length 3 with the
    offsets 0 and 2 owned: the sequence handed to [print_fasta_record] has
    4 characters. *)
Theorem yielded_length_differs_from_declared :
  map to_tlen (scan_answers ebwt_gap02) = [3; 3] /\
  map (fun r => (fst r, strlen (snd r))) (reconstruct ebwt_gap02) = [(0, 4)].
Proof. split; reflexivity. Qed.

(** C2 (defect of the code).  After the owned offset 0 the gap before
    offset 2 has two characters, not one: [ANNC] for the record of length 3
    and [GNNT] for the second record of the two-record scenario.  The
    record of length 20 with the offsets 0,1,2,7,8,15 comes out right. *)
Theorem gap_after_offset_zero_is_too_long :
  reconstruct ebwt_gap02 = [(0, str "ANNC")] /\
  reconstruct ebwt_5_3 = [(0, str "ACGTA"); (1, str "GNNT")] /\
  reconstruct ebwt_gap20 = [(0, str "ACGNNNNTANNNNNNCNNNN")].
Proof. repeat split. Qed.

(** C3 (defect of the code).  Record 0 has length 3 and record 1 length 5:
    when record 1 starts, record 0 is padded to 5 characters. *)
Theorem closing_pads_to_next_length :
  map (fun a => (to_tidx a, to_tlen a)) (scan_answers ebwt_two) = [(0, 3); (1, 5)] /\
  reconstruct ebwt_two = [(0, str "ANNNN"); (1, str "CNNNN")].
Proof. split; reflexivity. Qed.

(** ** Options *)

Section Options.

Variable strtol : cstring -> Z * option Z.

Lemma parseInt_below (lower : Z) (errmsg optarg : cstring) (io : streams) :
  fst (strtol optarg) < lower ->
  parseInt strtol lower errmsg optarg io
    = Exit 1 (mkStreams (cout io) (printUsage (put_line (cerr io) errmsg))).
Proof.
  intros H. unfold parseInt.
  destruct (strtol optarg) as [l [e|]]; simpl in H.
  - assert (E : (l <? lower) = true) by (apply Z.ltb_lt; lia).
    rewrite E. reflexivity.
  - reflexivity.
Qed.

(** Runs the chain of tests of [parseOption] on the option ['a']. *)
Ltac dispatch_across :=
  unfold parseOption;
  change (code "a" =? code "h") with false;
  change (code "a" =? code "?") with false;
  change (code "a" =? code "v") with false;
  change (code "a" =? code "n") with false;
  change (code "a" =? code "a") with true;
  cbn iota.

Lemma parseOption_across_below (optarg : cstring) (o : Options) (io : streams) :
  fst (strtol optarg) < 1 ->
  parseOption strtol (code "a") optarg o io
    = Exit 1 (mkStreams (cout io)
                (printUsage
                   (put_line (cerr io) (str "-a/--across arg must be at least 1")))).
Proof.
  intros H. dispatch_across. unfold bind at 1.
  rewrite parseInt_below by exact H. reflexivity.
Qed.

Lemma parseOption_accepted (opt : Z * cstring) (o : Options) (io : streams) :
  accepted strtol opt = true ->
  exists o', parseOption strtol (fst opt) (snd opt) o io = Ok (inr o') io.
Proof.
  destruct opt as [n arg]. unfold accepted. cbn [fst snd]. intros H.
  apply orb_prop in H. destruct H as [H|H]; [apply orb_prop in H; destruct H as [H|H]|].
  - apply Z.eqb_eq in H. subst n. eexists. destruct io. reflexivity.
  - apply Z.eqb_eq in H. subst n. eexists. destruct io. reflexivity.
  - apply andb_prop in H. destruct H as [H Hl]. apply Z.eqb_eq in H. subst n.
    dispatch_across. unfold bind, parseInt.
    destruct (strtol arg) as [l [e|]]; [|discriminate].
    apply Z.leb_le in Hl.
    assert (E : (l <? 1) = false) by (apply Z.ltb_ge; lia).
    rewrite E. eexists. reflexivity.
Qed.

Lemma parseOptions_accepted_prefix (rest : list (Z * cstring)) (pre : list (Z * cstring)) :
  Forall (fun opt => accepted strtol opt = true) pre ->
  forall (o : Options) (io : streams),
  exists o', parseOptions strtol (pre ++ rest) o io = parseOptions strtol rest o' io.
Proof.
  induction 1 as [|opt pre Hopt Hpre IH]; intros o io.
  - exists o. reflexivity.
  - destruct (parseOption_accepted opt o io Hopt) as (o1 & H1).
    destruct (IH o1 io) as (o2 & H2).
    exists o2. rewrite <- H2. destruct opt as [n arg].
    cbn [app parseOptions]. unfold bind at 1.
    cbn [fst snd] in H1. rewrite H1. reflexivity.
Qed.

End Options.

(** C8, amended.  An [-a] whose argument [strtol] reads as 0 or as a negative
    number makes [parseOptions] write the message and the usage to the
    error stream and leave with status 1, whatever the options set so far
    and whatever follows.  So [main], when [getopt_long] delivers such an
    [-a] after options that were taken in ([-v], [-n], [-a] with a number
    of at least 1), ends with status 1 and an empty standard output:
    [driver] has not run. *)
Theorem across_below_one_rejected :
  forall (strtol : cstring -> Z * option Z) (optarg : cstring),
    fst (strtol optarg) <= 0 ->
    (forall (o : Options) (io : streams) (post : list (Z * cstring)),
        parseOptions strtol ((code "a", optarg) :: post) o io
          = Exit 1 (mkStreams (cout io)
                      (printUsage
                         (put_line (cerr io)
                            (str "-a/--across arg must be at least 1"))))) /\
    (forall (loadEbwt : cstring -> Ebwt) (currentlyBigEndian NDEBUG : bool)
            (fuel : nat) (pre post : list (Z * cstring)) (args : list cstring),
        Forall (fun opt => accepted strtol opt = true) pre ->
        main strtol loadEbwt currentlyBigEndian NDEBUG fuel
             (pre ++ (code "a", optarg) :: post) args no_output
          = Exit 1 (mkStreams []
                      (printUsage [str "-a/--across arg must be at least 1"]))).
Proof.
  intros strtol optarg Hl.
  assert (Hopts : forall o io post,
             parseOptions strtol ((code "a", optarg) :: post) o io
               = Exit 1 (mkStreams (cout io)
                           (printUsage
                              (put_line (cerr io)
                                 (str "-a/--across arg must be at least 1"))))).
  { intros o io post. cbn [parseOptions]. unfold bind at 1.
    rewrite parseOption_across_below by lia. reflexivity. }
  split; [exact Hopts|].
  intros loadEbwt be nd fuel pre post args Hpre.
  unfold main. unfold bind at 1.
  destruct (parseOptions_accepted_prefix strtol ((code "a", optarg) :: post)
              pre Hpre default_options no_output) as (o' & ->).
  rewrite Hopts. reflexivity.
Qed.

Lemma across_below_one_rejected_witness :
  fst (strtol10 (str "-5")) <= 0 /\
  Forall (fun opt => accepted strtol10 opt = true)
         [(code "v", []); (code "a", str "60")] /\
  main strtol10 (fun _ => ebwt_5_3) false true 100
       ([(code "v", []); (code "a", str "60")]
          ++ (code "a", str "-5") :: [(code "n", [])])
       [str "idx"] no_output
    = Exit 1 (mkStreams []
                (printUsage [str "-a/--across arg must be at least 1"])).
Proof.
  assert (H1 : fst (strtol10 (str "-5")) <= 0) by (vm_compute; discriminate).
  assert (H2 : Forall (fun opt => accepted strtol10 opt = true)
                      [(code "v", []); (code "a", str "60")]).
  { repeat constructor. }
  split; [exact H1 | split; [exact H2 |]].
  exact (proj2 (across_below_one_rejected strtol10 (str "-5") H1)
           (fun _ => ebwt_5_3) false true 100%nat
           [(code "v", []); (code "a", str "60")] [(code "n", [])]
           [str "idx"] H2).
Defined.

(** C8 as written fails when [-h] comes before the [-a]: the width 0 is
    never looked at, the long usage goes to the standard output, nothing
    to the error stream, and the status is 0. *)
Lemma help_before_across_zero_exits_zero :
  fst (strtol10 (str "0")) <= 0 /\
  main strtol10 (fun _ => ebwt_5_3) false true 10
       [(code "h", []); (code "a", str "0")] [str "idx"] no_output
    = Exit 0 (mkStreams [[]; str "LONG USAGE TODO"; []] []).
Proof.
  split; [vm_compute; discriminate | reflexivity].
Qed.

(** * Further properties *)

(** ** Option parsing *)

(** Runs the chain of tests of [parseOption] on a given option character. *)
Ltac dispatch_option :=
  unfold parseOption;
  repeat match goal with
         | |- context [code ?a =? code ?b] =>
             let v := eval vm_compute in (code a =? code b) in
             change (code a =? code b) with v
         end;
  cbn iota.

(** A number in the range of [int] that is at least [lower] is returned
    as it is, and nothing is written. *)
Theorem parseInt_accepts :
  forall (strtol : cstring -> Z * option Z) (lower : Z)
         (errmsg optarg : cstring) (l e : Z) (io : streams),
    strtol optarg = (l, Some e) ->
    lower <= l ->
    - 2 ^ 31 <= l < 2 ^ 31 ->
    parseInt strtol lower errmsg optarg io = Ok l io.
Proof.
  intros strtol lower errmsg optarg l e io Hs Hl Hr.
  unfold parseInt. rewrite Hs.
  assert (E : (l <? lower) = false) by (apply Z.ltb_ge; lia).
  rewrite E. unfold ret, int32_of_long, UINT32_MOD.
  rewrite Z.mod_small by lia. f_equal. lia.
Qed.

Lemma parseInt_accepts_witness :
  strtol10 (str "80") = (80, Some 2) /\ 1 <= 80 /\ - 2 ^ 31 <= 80 < 2 ^ 31 /\
  parseInt strtol10 1 (str "-a/--across arg must be at least 1") (str "80") no_output
    = Ok 80 no_output.
Proof.
  assert (H1 : strtol10 (str "80") = (80, Some 2)) by reflexivity.
  assert (H2 : 1 <= 80) by lia.
  assert (H3 : - 2 ^ 31 <= 80 < 2 ^ 31) by lia.
  split; [exact H1 | split; [exact H2 | split; [exact H3 |]]].
  exact (parseInt_accepts strtol10 1 (str "-a/--across arg must be at least 1")
           (str "80") 80 2 no_output H1 H2 H3).
Defined.

Lemma parseOptions_across_wraps :
  forall (strtol : cstring -> Z * option Z) (optarg : cstring) (l e : Z)
         (rest : list (Z * cstring)) (o : Options) (io : streams),
    strtol optarg = (l, Some e) ->
    1 <= l ->
    l mod 2 ^ 32 = 0 ->
    parseOptions strtol ((code "a", optarg) :: rest) o io
      = parseOptions strtol rest (mkOptions (verbose o) (names_only o) 0) io.
Proof.
  intros strtol optarg l e rest o io Hs Hl Hm.
  cbn [parseOptions]. unfold bind at 1. dispatch_option.
  unfold bind at 1. unfold parseInt. rewrite Hs.
  assert (E : (l <? 1) = false) by (apply Z.ltb_ge; lia).
  rewrite E. unfold ret at 1.
  assert (H0 : int32_of_long l = 0).
  { unfold int32_of_long, UINT32_MOD.
    rewrite Z.add_mod, Hm by lia. simpl (0 + _).
    rewrite Z.mod_mod by lia. reflexivity. }
  rewrite H0. reflexivity.
Qed.

(** The test against [lower] is made on the [long], the result is its cast
    to [int32_t]: a positive multiple of [2^32] passes the test of [-a] and
    sets [across] to 0. *)
Theorem across_multiple_of_2_32_becomes_zero :
  forall (strtol : cstring -> Z * option Z) (optarg : cstring) (l e : Z)
         (rest : list (Z * cstring)) (o : Options) (io : streams),
    strtol optarg = (l, Some e) ->
    1 <= l ->
    l mod 2 ^ 32 = 0 ->
    parseOptions strtol ((code "a", optarg) :: rest) o io
      = parseOptions strtol rest (mkOptions (verbose o) (names_only o) 0) io.
Proof. exact parseOptions_across_wraps. Qed.

Lemma across_multiple_of_2_32_becomes_zero_witness :
  strtol10 (str "4294967296") = (4294967296, Some 10) /\
  1 <= 4294967296 /\ 4294967296 mod 2 ^ 32 = 0 /\
  parseOptions strtol10 [(code "a", str "4294967296")] default_options no_output
    = Ok (mkOptions false false 0) no_output.
Proof.
  assert (H1 : strtol10 (str "4294967296") = (4294967296, Some 10)) by reflexivity.
  assert (H2 : 1 <= 4294967296) by lia.
  assert (H3 : 4294967296 mod 2 ^ 32 = 0) by reflexivity.
  split; [exact H1 | split; [exact H2 | split; [exact H3 |]]].
  exact (across_multiple_of_2_32_becomes_zero strtol10 (str "4294967296")
           4294967296 10 [] default_options no_output H1 H2 H3).
Defined.

Lemma parseOptions_accepted_ok (strtol : cstring -> Z * option Z)
    (opts : list (Z * cstring)) (o : Options) (io : streams) :
  Forall (fun opt => accepted strtol opt = true) opts ->
  exists o', parseOptions strtol opts o io = Ok o' io.
Proof.
  intros H.
  destruct (parseOptions_accepted_prefix strtol [] opts H o io) as (o' & Ho').
  rewrite app_nil_r in Ho'. exists o'. exact Ho'.
Qed.

Lemma parseOptions_accepted_state :
  forall (strtol : cstring -> Z * option Z) (opts : list (Z * cstring)),
    Forall (fun opt => accepted strtol opt = true) opts ->
    forall (o : Options) (io : streams),
    exists o',
      parseOptions strtol opts o io = Ok o' io /\
      verbose o' = verbose o || has_option "v" opts /\
      names_only o' = names_only o || has_option "n" opts /\
      across o' = last_across strtol opts (across o).
Proof.
  intros strtol opts H. induction H as [|opt opts Hopt Hopts IH]; intros o io.
  - exists o. cbn. rewrite !orb_false_r. repeat split; reflexivity.
  - destruct opt as [n arg]. unfold accepted in Hopt. cbn [fst snd] in Hopt.
    unfold has_option. cbn [existsb last_across fst snd parseOptions].
    fold (has_option "v" opts). fold (has_option "n" opts).
    unfold bind at 1.
    apply orb_prop in Hopt.
    destruct Hopt as [Hopt|Hopt]; [apply orb_prop in Hopt; destruct Hopt as [Hopt|Hopt]|].
    + apply Z.eqb_eq in Hopt. subst n. dispatch_option. unfold ret at 1.
      destruct (IH (mkOptions true (names_only o) (across o)) io)
        as (o' & Hrun & Hv & Hn & Ha).
      exists o'. cbn [verbose names_only across] in *.
      rewrite Hrun, Hv, Hn, Ha.
      repeat split; try reflexivity. now rewrite orb_true_r.
    + apply Z.eqb_eq in Hopt. subst n. dispatch_option. unfold ret at 1.
      destruct (IH (mkOptions (verbose o) true (across o)) io)
        as (o' & Hrun & Hv & Hn & Ha).
      exists o'. cbn [verbose names_only across] in *.
      rewrite Hrun, Hv, Hn, Ha.
      repeat split; try reflexivity. now rewrite orb_true_r.
    + apply andb_prop in Hopt. destruct Hopt as [Hopt Hl].
      apply Z.eqb_eq in Hopt. subst n. dispatch_option.
      unfold bind at 1. unfold parseInt.
      destruct (strtol arg) as [l [e|]]; [|discriminate].
      apply Z.leb_le in Hl.
      assert (E : (l <? 1) = false) by (apply Z.ltb_ge; lia).
      rewrite E. unfold ret at 1. unfold ret at 1.
      destruct (IH (mkOptions (verbose o) (names_only o) (int32_of_long l)) io)
        as (o' & Hrun & Hv & Hn & Ha).
      exists o'. cbn [verbose names_only across fst] in *.
      rewrite Hrun, Hv, Hn, Ha.
      repeat split; reflexivity.
Qed.

(** Options that are taken in write nothing and end nothing; [-v] and
    [-n] set their flag for good and the last [-a] gives the width. *)
Theorem parseOptions_accepted_flags :
  forall (strtol : cstring -> Z * option Z) (opts : list (Z * cstring)),
    Forall (fun opt => accepted strtol opt = true) opts ->
    forall (o : Options) (io : streams),
    exists o',
      parseOptions strtol opts o io = Ok o' io /\
      verbose o' = verbose o || has_option "v" opts /\
      names_only o' = names_only o || has_option "n" opts /\
      across o' = last_across strtol opts (across o).
Proof. exact parseOptions_accepted_state. Qed.

Lemma parseOptions_accepted_flags_witness :
  Forall (fun opt => accepted strtol10 opt = true)
         [(code "a", str "70"); (code "n", []); (code "a", str "8")] /\
  exists o',
    parseOptions strtol10 [(code "a", str "70"); (code "n", []); (code "a", str "8")]
                 default_options no_output = Ok o' no_output /\
    verbose o' = false /\ names_only o' = true /\ across o' = 8.
Proof.
  assert (H : Forall (fun opt => accepted strtol10 opt = true)
                     [(code "a", str "70"); (code "n", []); (code "a", str "8")]).
  { repeat constructor. }
  split; [exact H|].
  exact (parseOptions_accepted_flags strtol10 _ H default_options no_output).
Defined.

(** [-h] after options that were taken in: the long usage goes to the
    standard output and the program ends with status 0, whether or not an
    index name follows; nothing is loaded or reconstructed. *)
Theorem help_exits_zero :
  forall (strtol : cstring -> Z * option Z) (loadEbwt : cstring -> Ebwt)
         (currentlyBigEndian NDEBUG : bool) (fuel : nat)
         (pre post : list (Z * cstring)) (optarg : cstring) (args : list cstring),
    Forall (fun opt => accepted strtol opt = true) pre ->
    main strtol loadEbwt currentlyBigEndian NDEBUG fuel
         (pre ++ (code "h", optarg) :: post) args no_output
      = Exit 0 (mkStreams (printLongUsage []) []).
Proof.
  intros strtol loadEbwt be nd fuel pre post optarg args Hpre.
  unfold main. unfold bind at 1.
  destruct (parseOptions_accepted_prefix strtol ((code "h", optarg) :: post)
              pre Hpre default_options no_output) as (o' & ->).
  cbn [parseOptions]. unfold bind at 1. dispatch_option. reflexivity.
Qed.

Lemma help_exits_zero_witness :
  Forall (fun opt => accepted strtol10 opt = true) [(code "n", [])] /\
  main strtol10 (fun _ => ebwt_5_3) false true 10
       ([(code "n", [])] ++ (code "h", []) :: [(code "a", str "0")]) [] no_output
    = Exit 0 (mkStreams [[]; str "LONG USAGE TODO"; []] []).
Proof.
  assert (H : Forall (fun opt => accepted strtol10 opt = true) [(code "n", [])]).
  { repeat constructor. }
  split; [exact H|].
  exact (help_exits_zero strtol10 (fun _ => ebwt_5_3) false true 10%nat
           [(code "n", [])] [(code "a", str "0")] [] [] H).
Defined.

(** Without an index name, after options that were taken in, [main]
    returns 1 with the message and the usage on the error stream; no index
    is loaded, also when [-v] was given. *)
Theorem missing_index_name :
  forall (strtol : cstring -> Z * option Z) (loadEbwt : cstring -> Ebwt)
         (currentlyBigEndian NDEBUG : bool) (fuel : nat)
         (opts : list (Z * cstring)),
    Forall (fun opt => accepted strtol opt = true) opts ->
    main strtol loadEbwt currentlyBigEndian NDEBUG fuel opts [] no_output
      = Ok 1 (mkStreams [] (printUsage [str "No index name given!"])).
Proof.
  intros strtol loadEbwt be nd fuel opts Hopts.
  unfold main. unfold bind at 1.
  destruct (parseOptions_accepted_ok strtol opts default_options no_output Hopts)
    as (o' & ->).
  reflexivity.
Qed.

Lemma missing_index_name_witness :
  Forall (fun opt => accepted strtol10 opt = true) [(code "v", []); (code "n", [])] /\
  main strtol10 (fun _ => ebwt_5_3) false true 10 [(code "v", []); (code "n", [])]
       [] no_output
    = Ok 1 (mkStreams [] (printUsage [str "No index name given!"])).
Proof.
  assert (H : Forall (fun opt => accepted strtol10 opt = true)
                     [(code "v", []); (code "n", [])]).
  { repeat constructor. }
  split; [exact H|].
  exact (missing_index_name strtol10 (fun _ => ebwt_5_3) false true 10%nat
           [(code "v", []); (code "n", [])] H).
Defined.

(** ** The line wrapper at its edges *)

Lemma fasta_loop_zero_width (seq : cstring) :
  seq <> [] ->
  forall (fuel : nat) (fout : ostream), fasta_loop fuel 0 seq 0 fout = None.
Proof.
  intros Hne.
  assert (Htest : (0 <? strlen seq) = true).
  { apply Z.ltb_lt. unfold strlen. destruct seq; [congruence | simpl; lia]. }
  induction fuel as [|fuel IH]; intros fout.
  - reflexivity.
  - cbn [fasta_loop]. change (add_size 0 (size_t_of_int 0)) with 0.
    rewrite Htest. apply IH.
Qed.

(** With the width 0 the loop never advances: on a non-empty sequence
    [print_fasta_record] does not end, whatever the number of turns
    allowed. *)
Theorem zero_width_never_ends :
  forall (fuel : nat) (fout : ostream) (defline seq : cstring),
    seq <> [] ->
    print_fasta_record fuel 0 fout defline seq = None.
Proof.
  intros fuel fout defline seq Hne. unfold print_fasta_record.
  now rewrite fasta_loop_zero_width.
Qed.

Lemma zero_width_never_ends_witness :
  str "ACGT" <> [] /\
  print_fasta_record 1000 0 [] (str "r0") (str "ACGT") = None.
Proof.
  assert (H : str "ACGT" <> []) by discriminate.
  split; [exact H|].
  exact (zero_width_never_ends 1000 [] (str "r0") (str "ACGT") H).
Defined.

Lemma print_fasta_record_empty_seq :
  forall (fuel : nat) (W : Z) (fout : ostream) (defline : cstring),
    (0 < fuel)%nat ->
    print_fasta_record fuel W fout defline [] = Some (fout ++ [">"%char :: defline]).
Proof.
  intros fuel W fout defline Hfuel.
  destruct fuel as [|fuel]; [lia|].
  unfold print_fasta_record. cbn [fasta_loop].
  assert (E : (add_size 0 (size_t_of_int W) <? strlen []) = false).
  { apply Z.ltb_ge. unfold add_size, strlen, SIZE_MOD. simpl Z.of_nat.
    apply Z.mod_pos_bound. lia. }
  rewrite E. reflexivity.
Qed.

(** An empty sequence gives the header line and nothing else, for every
    width, 0 and the negative ones included. *)
Theorem empty_sequence_prints_header_only :
  forall (fuel : nat) (W : Z) (fout : ostream) (defline : cstring),
    (0 < fuel)%nat ->
    print_fasta_record fuel W fout defline [] = Some (fout ++ [">"%char :: defline]).
Proof. exact print_fasta_record_empty_seq. Qed.

Lemma empty_sequence_prints_header_only_witness :
  (0 < 1)%nat /\
  print_fasta_record 1 0 [] (str "r0") [] = Some [str ">r0"].
Proof.
  assert (H : (0 < 1)%nat) by lia.
  split; [exact H|].
  exact (empty_sequence_prints_header_only 1 0 [] (str "r0") H).
Defined.

(** A negative width, which the cast in [parseInt] can produce, is a huge
    [size_t]: the loop is not entered and the whole sequence goes on one
    line. *)
Theorem negative_width_prints_one_line :
  forall (fuel : nat) (W : Z) (fout : ostream) (defline seq : cstring),
    - 2 ^ 31 <= W < 0 ->
    seq <> [] ->
    strlen seq <= SIZE_MOD - 2 ^ 31 ->
    (0 < fuel)%nat ->
    print_fasta_record fuel W fout defline seq
      = Some (fout ++ [">"%char :: defline; seq]).
Proof.
  intros fuel W fout defline seq HW Hne Hlen Hfuel.
  destruct fuel as [|fuel]; [lia|].
  assert (Hpos : 0 < strlen seq).
  { unfold strlen. destruct seq; [congruence | simpl; lia]. }
  unfold print_fasta_record. cbn [fasta_loop].
  assert (Hsz : size_t_of_int W = SIZE_MOD + W).
  { unfold size_t_of_int, SIZE_MOD in *.
    rewrite <- (Z.mod_add W 1 (2 ^ 64)) by lia.
    rewrite Z.mod_small; lia. }
  assert (E : (add_size 0 (size_t_of_int W) <? strlen seq) = false).
  { apply Z.ltb_ge. rewrite Hsz. unfold add_size, SIZE_MOD in *.
    rewrite Z.mod_small; lia. }
  rewrite E.
  assert (E2 : (0 <? strlen seq) = true) by (apply Z.ltb_lt; lia).
  rewrite E2. unfold put_line, substr_from. simpl skipn.
  rewrite <- app_assoc. reflexivity.
Qed.

Lemma negative_width_prints_one_line_witness :
  - 2 ^ 31 <= -3 < 0 /\ str "ACGTACGT" <> [] /\
  strlen (str "ACGTACGT") <= SIZE_MOD - 2 ^ 31 /\ (0 < 1)%nat /\
  print_fasta_record 1 (-3) [] (str "r0") (str "ACGTACGT")
    = Some [str ">r0"; str "ACGTACGT"].
Proof.
  assert (H1 : - 2 ^ 31 <= -3 < 0) by lia.
  assert (H2 : str "ACGTACGT" <> []) by discriminate.
  assert (H3 : strlen (str "ACGTACGT") <= SIZE_MOD - 2 ^ 31)
    by (vm_compute; discriminate).
  assert (H4 : (0 < 1)%nat) by lia.
  split; [exact H1 | split; [exact H2 | split; [exact H3 | split; [exact H4 |]]]].
  exact (negative_width_prints_one_line 1 (-3) [] (str "r0") (str "ACGTACGT")
           H1 H2 H3 H4).
Defined.

Lemma strlen_concat_full (W : Z) (lines : list cstring) :
  Forall (fun l => strlen l = W) lines ->
  strlen (List.concat lines) = W * Z.of_nat (List.length lines).
Proof.
  induction 1 as [|l lines Hl Hlines IH].
  - simpl. unfold strlen. simpl. lia.
  - cbn [List.concat List.length]. rewrite strlen_app, IH, Hl. lia.
Qed.

Lemma print_fasta_record_lines :
  forall (fuel : nat) (W : Z) (fout : ostream) (defline seq : cstring),
    1 <= W ->
    seq <> [] ->
    strlen seq + W <= SIZE_MOD ->
    (List.length seq <= fuel)%nat ->
    exists out : list cstring,
      print_fasta_record fuel W fout defline seq
        = Some (fout ++ (">"%char :: defline) :: out) /\
      Z.of_nat (List.length out) = (strlen seq + W - 1) / W /\
      List.concat out = seq /\
      Forall (fun l => 1 <= strlen l <= W) out.
Proof.
  intros fuel W fout defline seq HW Hne Hsize Hfuel.
  assert (Hlen : 0 < strlen seq).
  { unfold strlen; destruct seq; [congruence | simpl; lia]. }
  destruct (fasta_loop_lines W seq HW Hsize fuel 0
              (put_line fout (">"%char :: defline)))
    as (i' & lines & Hrun & Hrange & Hlast & Hcat & Hfull).
  { lia. }
  { unfold strlen in *; lia. }
  exists (lines ++ [substr_from seq i']).
  unfold print_fasta_record. rewrite Hrun.
  assert (Hi' : (i' <? strlen seq) = true) by (apply Z.ltb_lt; lia).
  rewrite Hi'. unfold put_line.
  rewrite Z.sub_0_r in Hcat. simpl skipn in Hcat.
  assert (Hcount : i' = W * Z.of_nat (List.length lines)).
  { rewrite <- (strlen_concat_full W lines Hfull), Hcat.
    unfold strlen in *. rewrite length_firstn. lia. }
  split; [|split; [|split]].
  - f_equal. rewrite <- !app_assoc. reflexivity.
  - rewrite length_app. simpl List.length.
    apply Z.div_unique
      with (r := strlen seq + W - 1 - W * (Z.of_nat (List.length lines) + 1));
      nia.
  - rewrite concat_app, Hcat. simpl. rewrite app_nil_r.
    unfold substr_from. apply firstn_skipn.
  - apply Forall_app. split.
    + eapply Forall_impl; [|exact Hfull]. simpl. intros l Hl. lia.
    + constructor; [|constructor].
      unfold substr_from, strlen in *. rewrite length_skipn. lia.
Qed.

(** A sequence of [n >= 1] characters is written on [ceil(n / W)] lines
    after the header, and these lines put together are the sequence. *)
Theorem print_fasta_record_line_count :
  forall (fuel : nat) (W : Z) (fout : ostream) (defline seq : cstring),
    1 <= W ->
    seq <> [] ->
    strlen seq + W <= SIZE_MOD ->
    (List.length seq <= fuel)%nat ->
    exists out : list cstring,
      print_fasta_record fuel W fout defline seq
        = Some (fout ++ (">"%char :: defline) :: out) /\
      Z.of_nat (List.length out) = (strlen seq + W - 1) / W /\
      List.concat out = seq.
Proof.
  intros fuel W fout defline seq HW Hne Hsize Hfuel.
  destruct (print_fasta_record_lines fuel W fout defline seq HW Hne Hsize Hfuel)
    as (out & Hrun & Hcount & Hcat & _).
  exists out. auto.
Qed.

Lemma print_fasta_record_line_count_witness :
  1 <= 3 /\ str "ACGTACG" <> [] /\ strlen (str "ACGTACG") + 3 <= SIZE_MOD /\
  (List.length (str "ACGTACG") <= 7)%nat /\
  exists out : list cstring,
    print_fasta_record 7 3 [] (str "r0") (str "ACGTACG")
      = Some ([] ++ (">"%char :: str "r0") :: out) /\
    Z.of_nat (List.length out) = 3 /\
    List.concat out = str "ACGTACG".
Proof.
  assert (H1 : 1 <= 3) by lia.
  assert (H2 : str "ACGTACG" <> []) by discriminate.
  assert (H3 : strlen (str "ACGTACG") + 3 <= SIZE_MOD) by (vm_compute; discriminate).
  assert (H4 : (List.length (str "ACGTACG") <= 7)%nat) by (simpl; lia).
  split; [exact H1 | split; [exact H2 | split; [exact H3 | split; [exact H4 |]]]].
  exact (print_fasta_record_line_count 7 3 [] (str "r0") (str "ACGTACG")
           H1 H2 H3 H4).
Defined.

(** ** The scan: what happens to the characters *)

Lemma real_chars_app (a b : cstring) :
  real_chars (a ++ b) = real_chars a ++ real_chars b.
Proof. unfold real_chars. apply filter_app. Qed.

Lemma real_chars_fill_gap (n : Z) : real_chars (fill n "N"%char) = [].
Proof.
  unfold fill. induction (Z.to_nat n) as [|k IH]; [reflexivity|].
  simpl. exact IH.
Qed.

Lemma real_chars_dna (c : Dna) : real_chars [dna_char c] = [dna_char c].
Proof. destruct c; reflexivity. Qed.

Lemma real_chars_add_gap (textoff last : Z) (s : cstring) :
  real_chars (add_gap textoff last s) = real_chars s.
Proof.
  unfold add_gap. destruct (1 <? sub32 textoff last); [|reflexivity].
  now rewrite real_chars_app, real_chars_fill_gap, app_nil_r.
Qed.

Lemma real_chars_add_trailing_gaps (t : Z) (s : cstring) :
  real_chars (add_trailing_gaps t s) = real_chars s.
Proof.
  unfold add_trailing_gaps. destruct (strlen s <? t); [|reflexivity].
  now rewrite real_chars_app, real_chars_fill_gap, app_nil_r.
Qed.

(** One iteration adds the character of an owned position, and nothing
    else that is not a gap character, to what has been yielded and
    accumulated. *)
Lemma scan_step_real_chars (st : scan_state) (c : Dna) (a : TextOff) :
  (curr_ref st = NOREF -> curr_ref_seq st = []) ->
  real_chars (List.concat (map snd (yielded (scan_step st c a)))
                ++ curr_ref_seq (scan_step st c a))
    = real_chars (List.concat (map snd (yielded st)) ++ curr_ref_seq st)
        ++ (if owned a then [dna_char c] else []) /\
  (curr_ref (scan_step st c a) = NOREF -> curr_ref_seq (scan_step st c a) = []).
Proof.
  intros Hinit. unfold scan_step.
  destruct (owned a) eqn:Hown.
  - split.
    + unfold switch_ref.
      destruct (curr_ref st =? to_tidx a) eqn:E1; cbn [negb curr_ref curr_ref_seq
        last_text_off yielded].
      * rewrite !real_chars_app, real_chars_add_gap, real_chars_dna.
        now rewrite app_assoc.
      * destruct (curr_ref st =? NOREF) eqn:E2; cbn [negb].
        -- apply Z.eqb_eq in E2. rewrite (Hinit E2), app_nil_r.
           rewrite !real_chars_app, real_chars_add_gap, real_chars_dna.
           reflexivity.
        -- rewrite map_app, concat_app. cbn [map snd List.concat].
           rewrite !real_chars_app, real_chars_add_gap, real_chars_dna.
           rewrite real_chars_add_trailing_gaps. cbn [real_chars filter].
           rewrite !app_nil_r. cbn [app]. rewrite <- app_assoc. reflexivity.
    + intros Hcur. exfalso.
      pose proof (scan_step_owned_ref st c a Hown) as Href.
      unfold scan_step in Href. rewrite Hown in Href.
      rewrite Href in Hcur. now apply owned_not_noref in Hown.
  - cbn [curr_ref curr_ref_seq yielded]. rewrite app_nil_r. split; auto.
Qed.

Lemma scan_loop_real_chars (o : Z -> TextOff) (cat : list Dna) :
  forall (i : Z) (st : scan_state),
    (curr_ref st = NOREF -> curr_ref_seq st = []) ->
    real_chars (List.concat (map snd (yielded (scan_loop o cat i st)))
                  ++ curr_ref_seq (scan_loop o cat i st))
      = real_chars (List.concat (map snd (yielded st)) ++ curr_ref_seq st)
          ++ owned_chars o cat i /\
    (curr_ref (scan_loop o cat i st) = NOREF ->
     curr_ref_seq (scan_loop o cat i st) = []).
Proof.
  induction cat as [|c cat IH]; intros i st Hinit.
  - simpl. rewrite app_nil_r. split; auto.
  - cbn [scan_loop owned_chars].
    destruct (scan_step_real_chars st c (o i) Hinit) as [Hstep Hinit'].
    destruct (IH (i + 1) _ Hinit') as [Hloop Hfin].
    split; [|exact Hfin].
    rewrite Hloop, Hstep, <- app_assoc.
    destruct (owned (o i)); reflexivity.
Qed.

(** When the identities of the owned positions index [refnames], the
    sequences handed to [print_fasta_record], put end to end and with the
    gap characters taken out, are the characters of the owned positions in
    scan order: none is lost, repeated or moved. *)
Theorem owned_characters_preserved :
  forall ebwt : Ebwt,
    Forall (fun r => r < Z.of_nat (List.length (refnames ebwt))) (owned_ids ebwt) ->
    real_chars (List.concat (map snd (reconstruct ebwt)))
      = owned_chars (joinedToTextOff ebwt) (restore ebwt) 0.
Proof.
  intros ebwt Hvalid.
  destruct (scan_loop_real_chars (joinedToTextOff ebwt) (restore ebwt) 0 scan_init)
    as [Hchars Hfin]; [reflexivity|].
  destruct (scan_loop_ids (joinedToTextOff ebwt) (restore ebwt) 0 scan_init)
    as [_ Hc].
  fold (scan_answers ebwt) in Hc. fold (owned_ids ebwt) in Hc.
  cbn [curr_ref scan_init] in Hc.
  unfold reconstruct, scan_finish.
  set (fin := scan_loop (joinedToTextOff ebwt) (restore ebwt) 0 scan_init) in *.
  cbn [scan_init yielded curr_ref_seq map List.concat app real_chars filter] in Hchars.
  rewrite <- Hchars.
  destruct (curr_ref fin <? Z.of_nat (List.length (refnames ebwt))) eqn:E.
  - rewrite map_app, concat_app. cbn [map snd List.concat].
    rewrite !real_chars_app, real_chars_add_trailing_gaps.
    cbn [real_chars filter]. now rewrite app_nil_r.
  - apply Z.ltb_ge in E.
    destruct (last_id_in (owned_ids ebwt) NOREF) as [H|H].
    + rewrite <- Hc in H. rewrite (Hfin H), app_nil_r. reflexivity.
    + rewrite <- Hc in H. rewrite Forall_forall in Hvalid.
      apply Hvalid in H. lia.
Qed.

Lemma owned_characters_preserved_witness :
  Forall (fun r => r < Z.of_nat (List.length (refnames ebwt_off_range)))
         (owned_ids ebwt_off_range) /\
  real_chars (List.concat (map snd (reconstruct ebwt_off_range))) = str "AG".
Proof.
  assert (H : Forall (fun r => r < Z.of_nat (List.length (refnames ebwt_off_range)))
                     (owned_ids ebwt_off_range)).
  { repeat constructor. }
  split; [exact H|].
  exact (owned_characters_preserved ebwt_off_range H).
Defined.

Lemma real_chars_nonempty_app_dna (s : cstring) (c : Dna) :
  real_chars (s ++ [dna_char c]) <> [].
Proof.
  rewrite real_chars_app, real_chars_dna.
  destruct (real_chars s); discriminate.
Qed.

Lemma scan_step_has_real_char (st : scan_state) (c : Dna) (a : TextOff) :
  (curr_ref st <> NOREF -> real_chars (curr_ref_seq st) <> []) ->
  Forall (fun rs => real_chars (snd rs) <> []) (yielded st) ->
  (curr_ref (scan_step st c a) <> NOREF ->
   real_chars (curr_ref_seq (scan_step st c a)) <> []) /\
  Forall (fun rs => real_chars (snd rs) <> []) (yielded (scan_step st c a)).
Proof.
  intros Hcur Hy. unfold scan_step. destruct (owned a).
  - split.
    + intros _. cbn [curr_ref_seq]. apply real_chars_nonempty_app_dna.
    + cbn [yielded]. unfold switch_ref.
      destruct (curr_ref st =? to_tidx a); cbn [negb yielded]; [exact Hy|].
      destruct (curr_ref st =? NOREF) eqn:E; cbn [negb]; [exact Hy|].
      apply Forall_app. split; [exact Hy|].
      constructor; [|constructor]. cbn [snd].
      rewrite real_chars_add_trailing_gaps. apply Hcur.
      now apply Z.eqb_neq.
  - cbn [curr_ref curr_ref_seq yielded]. split; assumption.
Qed.

Lemma scan_loop_has_real_char (o : Z -> TextOff) (cat : list Dna) :
  forall (i : Z) (st : scan_state),
    (curr_ref st <> NOREF -> real_chars (curr_ref_seq st) <> []) ->
    Forall (fun rs => real_chars (snd rs) <> []) (yielded st) ->
    (curr_ref (scan_loop o cat i st) <> NOREF ->
     real_chars (curr_ref_seq (scan_loop o cat i st)) <> []) /\
    Forall (fun rs => real_chars (snd rs) <> []) (yielded (scan_loop o cat i st)).
Proof.
  induction cat as [|c cat IH]; intros i st Hcur Hy.
  - split; assumption.
  - cbn [scan_loop].
    destruct (scan_step_has_real_char st c (o i) Hcur Hy) as [Hcur' Hy'].
    now apply IH.
Qed.

Lemma reconstruct_has_real_char :
  forall ebwt : Ebwt,
    Z.of_nat (List.length (refnames ebwt)) <= NOREF ->
    Forall (fun rs => real_chars (snd rs) <> [] /\ snd rs <> [])
           (reconstruct ebwt).
Proof.
  intros ebwt Hsz.
  destruct (scan_loop_has_real_char (joinedToTextOff ebwt) (restore ebwt) 0 scan_init)
    as [Hcur Hy].
  { intros H. now contradiction H. }
  { constructor. }
  assert (Hboth : forall l : list (Z * cstring),
             Forall (fun rs => real_chars (snd rs) <> []) l ->
             Forall (fun rs => real_chars (snd rs) <> [] /\ snd rs <> []) l).
  { intros l H. eapply Forall_impl; [|exact H].
    intros rs Hrs. split; [exact Hrs|]. intros E. apply Hrs.
    rewrite E. reflexivity. }
  apply Hboth. unfold reconstruct, scan_finish.
  set (fin := scan_loop (joinedToTextOff ebwt) (restore ebwt) 0 scan_init) in *.
  destruct (curr_ref fin <? Z.of_nat (List.length (refnames ebwt))) eqn:E;
    [|exact Hy].
  apply Z.ltb_lt in E. apply Forall_app. split; [exact Hy|].
  constructor; [|constructor]. cbn [snd].
  rewrite real_chars_add_trailing_gaps. apply Hcur. lia.
Qed.

(** When [0xffffffff] is not an index of [refnames], every sequence
    handed to [print_fasta_record] holds at least one character of the
    joined text: no record is made of gap characters alone, and none is
    empty. *)
Theorem yielded_hold_a_real_character :
  forall ebwt : Ebwt,
    Z.of_nat (List.length (refnames ebwt)) <= NOREF ->
    Forall (fun rs => real_chars (snd rs) <> [] /\ snd rs <> [])
           (reconstruct ebwt).
Proof. exact reconstruct_has_real_char. Qed.

Lemma yielded_hold_a_real_character_witness :
  Z.of_nat (List.length (refnames ebwt_two)) <= NOREF /\
  Forall (fun rs => real_chars (snd rs) <> [] /\ snd rs <> [])
         [(0, str "ANNNN"); (1, str "CNNNN")].
Proof.
  assert (H : Z.of_nat (List.length (refnames ebwt_two)) <= NOREF)
    by (vm_compute; discriminate).
  split; [exact H|].
  exact (yielded_hold_a_real_character ebwt_two H).
Defined.

(** ** The scan: the padding of the last record *)

Lemma scan_step_tlen (st : scan_state) (c : Dna) (a : TextOff) :
  tlen (scan_step st c a) = to_tlen a.
Proof. unfold scan_step. destruct (owned a); reflexivity. Qed.

Lemma scan_loop_tlen (o : Z -> TextOff) (cat : list Dna) :
  forall (i : Z) (st : scan_state),
    cat <> [] ->
    tlen (scan_loop o cat i st) = to_tlen (o (i + Z.of_nat (List.length cat) - 1)).
Proof.
  induction cat as [|c cat IH]; intros i st Hne; [congruence|].
  cbn [scan_loop]. destruct cat as [|c' cat].
  - cbn [scan_loop List.length]. rewrite scan_step_tlen. do 2 f_equal. lia.
  - rewrite IH by discriminate. do 2 f_equal. cbn [List.length]. lia.
Qed.

(** The record open at the end of the scan is padded with the length that
    the oracle reported for the last position of the joined text, whether
    that position belongs to this record, to another one or to none: the
    last sequence handed out has at least that many characters. *)
Theorem last_record_padded_to_last_answer :
  forall ebwt : Ebwt,
    owned_ids ebwt <> [] ->
    Forall (fun r => r < Z.of_nat (List.length (refnames ebwt))) (owned_ids ebwt) ->
    exists (before : list (Z * cstring)) (s : cstring),
      reconstruct ebwt = before ++ [(last_id NOREF (owned_ids ebwt), s)] /\
      to_tlen (joinedToTextOff ebwt (Z.of_nat (List.length (restore ebwt)) - 1))
        <= strlen s.
Proof.
  intros ebwt Hne Hvalid.
  destruct (scan_loop_ids (joinedToTextOff ebwt) (restore ebwt) 0 scan_init)
    as [_ Hc].
  fold (scan_answers ebwt) in Hc. fold (owned_ids ebwt) in Hc.
  cbn [curr_ref scan_init] in Hc.
  assert (Hcat : restore ebwt <> []).
  { intros E. apply Hne. unfold owned_ids, scan_answers. now rewrite E. }
  pose proof (scan_loop_tlen (joinedToTextOff ebwt) (restore ebwt) 0 scan_init Hcat)
    as Ht.
  unfold reconstruct, scan_finish.
  set (fin := scan_loop (joinedToTextOff ebwt) (restore ebwt) 0 scan_init) in *.
  assert (Hlast : In (curr_ref fin) (owned_ids ebwt)).
  { rewrite Hc. now apply last_id_nil_iff. }
  rewrite Forall_forall in Hvalid. apply Hvalid in Hlast.
  apply Z.ltb_lt in Hlast. rewrite Hlast.
  exists (yielded fin), (add_trailing_gaps (tlen fin) (curr_ref_seq fin)).
  split; [now rewrite Hc|].
  rewrite add_trailing_gaps_length, Ht. simpl (0 + _). lia.
Qed.

Lemma last_record_padded_to_last_answer_witness :
  owned_ids ebwt_off_range <> [] /\
  Forall (fun r => r < Z.of_nat (List.length (refnames ebwt_off_range)))
         (owned_ids ebwt_off_range) /\
  exists (before : list (Z * cstring)) (s : cstring),
    reconstruct ebwt_off_range = before ++ [(0, s)] /\ 3 <= strlen s.
Proof.
  assert (H1 : owned_ids ebwt_off_range <> []) by discriminate.
  assert (H2 : Forall (fun r => r < Z.of_nat (List.length (refnames ebwt_off_range)))
                      (owned_ids ebwt_off_range)).
  { repeat constructor. }
  split; [exact H1 | split; [exact H2 |]].
  exact (last_record_padded_to_last_answer ebwt_off_range H1 H2).
Defined.

(** ** The scan on an index without gaps *)

Lemma scan_loop_pairs (o : Z -> TextOff) (cat : list Dna) :
  forall (i : Z) (st : scan_state),
    scan_loop o cat i st = scan_pairs (combine cat (answers o cat i)) st.
Proof.
  induction cat as [|c cat IH]; intros i st; [reflexivity|].
  cbn [scan_loop answers combine scan_pairs]. apply IH.
Qed.

Lemma scan_pairs_app (l1 l2 : list (Dna * TextOff)) :
  forall st : scan_state,
    scan_pairs (l1 ++ l2) st = scan_pairs l2 (scan_pairs l1 st).
Proof.
  induction l1 as [|[c a] l1 IH]; intros st; [reflexivity|].
  cbn [app scan_pairs]. apply IH.
Qed.

Lemma combine_app_same {A B} (a1 a2 : list A) (b1 b2 : list B) :
  List.length a1 = List.length b1 ->
  combine (a1 ++ a2) (b1 ++ b2) = combine a1 b1 ++ combine a2 b2.
Proof.
  revert b1. induction a1 as [|x a1 IH]; intros [|y b1] H; simpl in H;
    try discriminate; [reflexivity|].
  cbn [app combine]. f_equal. apply IH. lia.
Qed.

Lemma skipn_cons_nth {A} (d : A) (t : list A) :
  forall k : nat,
    (k < List.length t)%nat -> skipn k t = nth k t d :: skipn (S k) t.
Proof.
  induction t as [|x t IH]; intros k Hk; [simpl in Hk; lia|].
  destruct k as [|k]; [reflexivity|].
  cbn [skipn nth]. apply IH. simpl in Hk. lia.
Qed.

(** A table with an answer for every position is what the scan sees. *)
Lemma answers_table (t : list TextOff) (cat : list Dna) :
  forall k : nat,
    (k + List.length cat <= List.length t)%nat ->
    answers (table_oracle t) cat (Z.of_nat k)
      = firstn (List.length cat) (skipn k t).
Proof.
  induction cat as [|c cat IH]; intros k Hk; [reflexivity|].
  cbn [answers List.length] in *.
  rewrite (skipn_cons_nth unmapped) by lia. cbn [firstn].
  unfold table_oracle at 1. rewrite Nat2Z.id. f_equal.
  replace (Z.of_nat k + 1) with (Z.of_nat (S k)) by lia.
  apply IH. lia.
Qed.

Lemma record_answers_length (r : Z) (s : list Dna) :
  List.length (record_answers r s) = List.length s.
Proof. unfold record_answers. now rewrite length_map, length_seq. Qed.

Lemma joined_answers_length (recs : list (list Dna)) :
  forall r : Z,
    List.length (joined_answers r recs) = List.length (List.concat recs).
Proof.
  induction recs as [|s recs IH]; intros r; [reflexivity|].
  cbn [joined_answers List.concat].
  now rewrite !length_app, record_answers_length, IH.
Qed.

Lemma scan_answers_of_records (names : list cstring) (recs : list (list Dna)) :
  scan_answers (ebwt_of_records names recs) = joined_answers 0 recs.
Proof.
  unfold scan_answers, ebwt_of_records. cbn [joinedToTextOff restore].
  rewrite (answers_table _ _ 0%nat) by (rewrite joined_answers_length; lia).
  cbn [skipn]. rewrite <- (joined_answers_length recs 0). apply firstn_all.
Qed.

Lemma add_trailing_gaps_fill (t : Z) (s : cstring) :
  add_trailing_gaps t s = s ++ fill (t - strlen s) "N"%char.
Proof.
  unfold add_trailing_gaps. destruct (strlen s <? t) eqn:E; [reflexivity|].
  apply Z.ltb_ge in E. unfold fill.
  replace (Z.to_nat (t - strlen s)) with 0%nat by lia.
  simpl. now rewrite app_nil_r.
Qed.

Lemma strlen_chars (s : list Dna) :
  strlen (map dna_char s) = Z.of_nat (List.length s).
Proof. unfold strlen. now rewrite length_map. Qed.

(** Inside a record without gaps: offsets [k], [k+1], ... after [k-1]. *)
Lemma scan_pairs_run (r L : Z) (y : list (Z * cstring)) (s : list Dna) :
  r <> NOREF ->
  forall (k : nat) (acc : cstring),
    (1 <= k)%nat ->
    Z.of_nat (k + List.length s) <= L ->
    L < UINT32_MOD ->
    scan_pairs (combine s (map (fun j => mkTextOff r (Z.of_nat j) L)
                               (seq k (List.length s))))
               (mkScan r acc (Z.of_nat k - 1) L y)
      = mkScan r (acc ++ map dna_char s) (Z.of_nat (k + List.length s) - 1) L y.
Proof.
  intros Hr. induction s as [|c s IH]; intros k acc Hk HL Hmax.
  - cbn. rewrite app_nil_r, Nat.add_0_r. reflexivity.
  - cbn [List.length seq map combine scan_pairs] in *.
    assert (Hstep : scan_step (mkScan r acc (Z.of_nat k - 1) L y) c
                      (mkTextOff r (Z.of_nat k) L)
                    = mkScan r (acc ++ [dna_char c]) (Z.of_nat (S k) - 1) L y).
    { unfold scan_step, owned, switch_ref, add_gap, sub32.
      cbn [to_tidx to_textoff to_tlen curr_ref curr_ref_seq last_text_off yielded].
      assert (E1 : (r =? NOREF) = false) by (now apply Z.eqb_neq).
      assert (E2 : (Z.of_nat k <? L) = true) by (apply Z.ltb_lt; lia).
      rewrite E1, E2, Z.eqb_refl.
      cbn [negb andb curr_ref curr_ref_seq last_text_off yielded].
      replace (Z.of_nat k - (Z.of_nat k - 1)) with 1 by lia.
      change (1 mod UINT32_MOD) with 1. change (1 <? 1) with false.
      cbn iota. f_equal. lia. }
    rewrite Hstep, IH by lia.
    rewrite <- app_assoc. cbn [app]. f_equal. lia.
Qed.

(** A whole record without gaps, met while another record, or none, is
    current. *)
Lemma scan_pairs_record (r : Z) (s : list Dna) (st : scan_state) :
  r <> NOREF ->
  curr_ref st <> r ->
  s <> [] ->
  Z.of_nat (List.length s) < UINT32_MOD ->
  scan_pairs (combine s (record_answers r s)) st
    = mkScan r (map dna_char s) (Z.of_nat (List.length s) - 1)
             (Z.of_nat (List.length s))
             (if curr_ref st =? NOREF then yielded st
              else yielded st
                     ++ [(curr_ref st,
                          add_trailing_gaps (Z.of_nat (List.length s))
                                            (curr_ref_seq st))]).
Proof.
  intros Hr Hcur Hne Hmax.
  destruct s as [|c s]; [congruence|].
  unfold record_answers.
  cbn [List.length seq map combine scan_pairs].
  set (L := Z.of_nat (S (List.length s))) in *.
  assert (Hstep : scan_step st c (mkTextOff r (Z.of_nat 0) L)
                  = mkScan r [dna_char c] (Z.of_nat 1 - 1) L
                      (if curr_ref st =? NOREF then yielded st
                       else yielded st
                              ++ [(curr_ref st, add_trailing_gaps L (curr_ref_seq st))])).
  { unfold scan_step, owned, switch_ref.
    cbn [to_tidx to_textoff to_tlen].
    assert (E1 : (r =? NOREF) = false) by (now apply Z.eqb_neq).
    assert (E2 : (Z.of_nat 0 <? L) = true) by (apply Z.ltb_lt; subst L; lia).
    assert (E3 : (curr_ref st =? r) = false) by (now apply Z.eqb_neq).
    rewrite E1, E2, E3.
    cbn [negb andb curr_ref curr_ref_seq last_text_off yielded].
    destruct (curr_ref st =? NOREF); reflexivity. }
  rewrite Hstep.
  rewrite (scan_pairs_run r L _ s Hr 1 [dna_char c]); [| lia | subst L; lia | exact Hmax].
  reflexivity.
Qed.

(** The records that follow record [p], whose characters [prev] are the
    accumulated sequence. *)
Lemma scan_records_after (size : Z) (recs : list (list Dna)) :
  forall (p : Z) (prev : list Dna) (y : list (Z * cstring)),
    0 <= p ->
    p + Z.of_nat (List.length recs) < size ->
    size <= NOREF ->
    Forall (fun s => s <> [] /\ Z.of_nat (List.length s) < UINT32_MOD) recs ->
    scan_finish size
      (scan_pairs (combine (List.concat recs) (joined_answers (p + 1) recs))
         (mkScan p (map dna_char prev) (Z.of_nat (List.length prev) - 1)
                 (Z.of_nat (List.length prev)) y))
      = y ++ gapless_output p (prev :: recs).
Proof.
  induction recs as [|s recs IH]; intros p prev y Hp Hsize Hmax Hrecs.
  - cbn [List.concat joined_answers combine scan_pairs gapless_output].
    unfold scan_finish. cbn [curr_ref curr_ref_seq tlen yielded].
    assert (E : (p <? size) = true) by (apply Z.ltb_lt; simpl in Hsize; lia).
    rewrite E, add_trailing_gaps_fill, strlen_chars, Z.sub_diag. reflexivity.
  - inversion Hrecs as [|? ? [Hne Hlen] Hrest]; subst.
    cbn [List.concat joined_answers List.length] in *.
    rewrite combine_app_same by (now rewrite record_answers_length).
    rewrite scan_pairs_app.
    rewrite scan_pairs_record;
      [| lia | cbn [curr_ref]; lia | exact Hne | exact Hlen].
    cbn [curr_ref curr_ref_seq yielded].
    assert (E : (p =? NOREF) = false) by (apply Z.eqb_neq; lia).
    rewrite E.
    rewrite IH; [| lia | lia | exact Hmax | exact Hrest].
    rewrite <- app_assoc. cbn [app]. f_equal.
    cbn [gapless_output]. f_equal.
    rewrite add_trailing_gaps_fill, strlen_chars. reflexivity.
Qed.

Lemma reconstruct_of_records :
  forall (names : list cstring) (recs : list (list Dna)),
    Forall (fun s => s <> [] /\ Z.of_nat (List.length s) < UINT32_MOD) recs ->
    (List.length recs <= List.length names)%nat ->
    Z.of_nat (List.length names) <= NOREF ->
    reconstruct (ebwt_of_records names recs) = gapless_output 0 recs.
Proof.
  intros names recs Hrecs Hnames Hmax.
  unfold reconstruct. rewrite scan_loop_pairs.
  fold (scan_answers (ebwt_of_records names recs)).
  rewrite scan_answers_of_records.
  cbn [ebwt_of_records refnames restore].
  destruct recs as [|s recs].
  - cbn. unfold scan_finish. cbn [curr_ref scan_init].
    assert (E : (NOREF <? Z.of_nat (List.length names)) = false)
      by (apply Z.ltb_ge; lia).
    now rewrite E.
  - inversion Hrecs as [|? ? [Hne Hlen] Hrest]; subst.
    cbn [List.concat joined_answers List.length] in *.
    rewrite combine_app_same by (now rewrite record_answers_length).
    rewrite scan_pairs_app.
    rewrite scan_pairs_record;
      [| discriminate | discriminate | exact Hne | exact Hlen].
    cbn [curr_ref scan_init yielded]. rewrite Z.eqb_refl.
    rewrite (scan_records_after _ recs 0 s []); [reflexivity | lia | lia | exact Hmax | exact Hrest].
Qed.

(** The index made of records that own all their offsets: record [r] is
    handed out with its own characters, followed by gap characters when
    the record after it is longer, as many as the difference; the last
    record is handed out as it is. *)
Theorem gapless_index_output :
  forall (names : list cstring) (recs : list (list Dna)),
    Forall (fun s => s <> [] /\ Z.of_nat (List.length s) < UINT32_MOD) recs ->
    (List.length recs <= List.length names)%nat ->
    Z.of_nat (List.length names) <= NOREF ->
    reconstruct (ebwt_of_records names recs) = gapless_output 0 recs.
Proof. exact reconstruct_of_records. Qed.

Lemma gapless_index_output_witness :
  Forall (fun s => s <> [] /\ Z.of_nat (List.length s) < UINT32_MOD)
         [[DnaA; DnaC]; [DnaG; DnaT; DnaA; DnaC]; [DnaT]] /\
  (List.length [[DnaA; DnaC]; [DnaG; DnaT; DnaA; DnaC]; [DnaT]]
     <= List.length [str "r0"; str "r1"; str "r2"])%nat /\
  Z.of_nat (List.length [str "r0"; str "r1"; str "r2"]) <= NOREF /\
  reconstruct (ebwt_of_records [str "r0"; str "r1"; str "r2"]
                 [[DnaA; DnaC]; [DnaG; DnaT; DnaA; DnaC]; [DnaT]])
    = [(0, str "ACNN"); (1, str "GTAC"); (2, str "T")].
Proof.
  assert (H1 : Forall (fun s => s <> [] /\ Z.of_nat (List.length s) < UINT32_MOD)
                      [[DnaA; DnaC]; [DnaG; DnaT; DnaA; DnaC]; [DnaT]]).
  { repeat constructor; discriminate. }
  assert (H2 : (List.length [[DnaA; DnaC]; [DnaG; DnaT; DnaA; DnaC]; [DnaT]]
                  <= List.length [str "r0"; str "r1"; str "r2"])%nat)
    by (simpl; lia).
  assert (H3 : Z.of_nat (List.length [str "r0"; str "r1"; str "r2"]) <= NOREF)
    by (vm_compute; discriminate).
  split; [exact H1 | split; [exact H2 | split; [exact H3 |]]].
  exact (gapless_index_output [str "r0"; str "r1"; str "r2"]
           [[DnaA; DnaC]; [DnaG; DnaT; DnaA; DnaC]; [DnaT]] H1 H2 H3).
Defined.

Lemma gapless_output_decreasing (recs : list (list Dna)) :
  forall r : Z, lengths_decrease recs -> gapless_output r recs = numbered r recs.
Proof.
  induction recs as [|s recs IH]; intros r Hdec; [reflexivity|].
  cbn [gapless_output numbered lengths_decrease] in *.
  destruct Hdec as [Hnext Hdec]. rewrite IH by exact Hdec. do 2 f_equal.
  destruct recs as [|s' recs].
  - apply app_nil_r.
  - unfold fill.
    replace (Z.to_nat (Z.of_nat (List.length s') - Z.of_nat (List.length s)))
      with 0%nat by lia.
    apply app_nil_r.
Qed.

(** Round trip.  When the records own all their offsets and none is
    longer than the one before it (a single record in particular), each
    record comes out with exactly its characters, in order. *)
Theorem gapless_round_trip :
  forall (names : list cstring) (recs : list (list Dna)),
    Forall (fun s => s <> [] /\ Z.of_nat (List.length s) < UINT32_MOD) recs ->
    (List.length recs <= List.length names)%nat ->
    Z.of_nat (List.length names) <= NOREF ->
    lengths_decrease recs ->
    reconstruct (ebwt_of_records names recs) = numbered 0 recs.
Proof.
  intros names recs Hrecs Hnames Hmax Hdec.
  rewrite (reconstruct_of_records names recs Hrecs Hnames Hmax).
  now apply gapless_output_decreasing.
Qed.

Lemma gapless_round_trip_witness :
  Forall (fun s => s <> [] /\ Z.of_nat (List.length s) < UINT32_MOD)
         [[DnaG; DnaT; DnaA; DnaC]; [DnaA; DnaC]; [DnaT; DnaT]] /\
  (List.length [[DnaG; DnaT; DnaA; DnaC]; [DnaA; DnaC]; [DnaT; DnaT]]
     <= List.length [str "r0"; str "r1"; str "r2"])%nat /\
  Z.of_nat (List.length [str "r0"; str "r1"; str "r2"]) <= NOREF /\
  lengths_decrease [[DnaG; DnaT; DnaA; DnaC]; [DnaA; DnaC]; [DnaT; DnaT]] /\
  reconstruct (ebwt_of_records [str "r0"; str "r1"; str "r2"]
                 [[DnaG; DnaT; DnaA; DnaC]; [DnaA; DnaC]; [DnaT; DnaT]])
    = [(0, str "GTAC"); (1, str "AC"); (2, str "TT")].
Proof.
  assert (H1 : Forall (fun s => s <> [] /\ Z.of_nat (List.length s) < UINT32_MOD)
                      [[DnaG; DnaT; DnaA; DnaC]; [DnaA; DnaC]; [DnaT; DnaT]]).
  { repeat constructor; discriminate. }
  assert (H2 : (List.length [[DnaG; DnaT; DnaA; DnaC]; [DnaA; DnaC]; [DnaT; DnaT]]
                  <= List.length [str "r0"; str "r1"; str "r2"])%nat)
    by (simpl; lia).
  assert (H3 : Z.of_nat (List.length [str "r0"; str "r1"; str "r2"]) <= NOREF)
    by (vm_compute; discriminate).
  assert (H4 : lengths_decrease [[DnaG; DnaT; DnaA; DnaC]; [DnaA; DnaC]; [DnaT; DnaT]]).
  { simpl. repeat split; lia. }
  split; [exact H1 | split; [exact H2 | split; [exact H3 | split; [exact H4 |]]]].
  exact (gapless_round_trip [str "r0"; str "r1"; str "r2"]
           [[DnaG; DnaT; DnaA; DnaC]; [DnaA; DnaC]; [DnaT; DnaT]] H1 H2 H3 H4).
Defined.

(** ** From the records to the text, and [main] as a whole *)

Lemma print_records_blocks (fuel : nat) (W : Z) (names : list cstring) :
  1 <= W ->
  forall (recs : list (Z * cstring)) (fout : ostream),
    Forall (fun rs => 0 <= fst rs < Z.of_nat (List.length names) /\
                      (List.length (snd rs) < fuel)%nat /\
                      strlen (snd rs) + W <= SIZE_MOD) recs ->
    exists blocks : list (list cstring),
      print_records fuel W names recs fout = Some (fout ++ List.concat blocks) /\
      Forall2 (fasta_block names W) recs blocks.
Proof.
  intros HW. induction recs as [|[r s] recs IH]; intros fout Hrecs.
  - exists []. cbn. rewrite app_nil_r. split; [reflexivity | constructor].
  - inversion Hrecs as [|? ? (Hr & Hfuel & Hsize) Hrest]; subst.
    cbn [fst snd] in *. cbn [print_records].
    destruct (nth_error names (Z.to_nat r)) as [name|] eqn:Hname.
    2:{ apply nth_error_None in Hname. lia. }
    assert (Hone : exists lines,
               print_fasta_record fuel W fout name s
                 = Some (fout ++ (">"%char :: name) :: lines) /\
               List.concat lines = s /\
               Forall (fun l => 1 <= strlen l <= W) lines).
    { destruct s as [|c s].
      - exists []. rewrite print_fasta_record_empty_seq by lia.
        repeat split; constructor.
      - destruct (print_fasta_record_lines fuel W fout name (c :: s))
          as (out & Hrun & _ & Hcat & Hall);
          [exact HW | discriminate | exact Hsize | lia |].
        exists out. auto. }
    destruct Hone as (lines & Hrun & Hcat & Hall). rewrite Hrun.
    destruct (IH (fout ++ (">"%char :: name) :: lines) Hrest)
      as (blocks & Hrest_run & Hblocks).
    exists (((">"%char :: name) :: lines) :: blocks).
    split.
    + rewrite Hrest_run. cbn [List.concat]. rewrite <- !app_assoc. reflexivity.
    + constructor; [|exact Hblocks].
      exists name, lines. cbn [fst snd]. auto.
Qed.

(** When the width is at least 1 and every reconstructed record has an
    identity inside [refnames] and a length within the fuel and the range
    of [size_t], [print_index_sequences] ends and writes one block per
    record, in order: the header with the record's name, then lines of 1
    to [W] characters that make up the sequence.  What was on the stream
    before is left as it was. *)
Theorem print_index_sequences_blocks :
  forall (fuel : nat) (W : Z) (fout : ostream) (ebwt : Ebwt),
    1 <= W ->
    Forall (fun rs => 0 <= fst rs < Z.of_nat (List.length (refnames ebwt)) /\
                      (List.length (snd rs) < fuel)%nat /\
                      strlen (snd rs) + W <= SIZE_MOD) (reconstruct ebwt) ->
    exists blocks : list (list cstring),
      print_index_sequences fuel W fout ebwt = Some (fout ++ List.concat blocks) /\
      Forall2 (fasta_block (refnames ebwt) W) (reconstruct ebwt) blocks.
Proof.
  intros fuel W fout ebwt HW Hrecs. unfold print_index_sequences.
  now apply print_records_blocks.
Qed.

Lemma print_index_sequences_blocks_witness :
  1 <= 2 /\
  Forall (fun rs => 0 <= fst rs < Z.of_nat (List.length (refnames ebwt_5_3)) /\
                    (List.length (snd rs) < 10)%nat /\
                    strlen (snd rs) + 2 <= SIZE_MOD) (reconstruct ebwt_5_3) /\
  exists blocks : list (list cstring),
    print_index_sequences 10 2 [] ebwt_5_3 = Some ([] ++ List.concat blocks) /\
    Forall2 (fasta_block (refnames ebwt_5_3) 2) (reconstruct ebwt_5_3) blocks.
Proof.
  assert (H1 : 1 <= 2) by lia.
  assert (H2 : Forall (fun rs => 0 <= fst rs < Z.of_nat (List.length (refnames ebwt_5_3)) /\
                                 (List.length (snd rs) < 10)%nat /\
                                 strlen (snd rs) + 2 <= SIZE_MOD)
                      (reconstruct ebwt_5_3)).
  { repeat constructor; try (simpl; lia); vm_compute; discriminate. }
  split; [exact H1 | split; [exact H2 |]].
  exact (print_index_sequences_blocks 10 2 [] ebwt_5_3 H1 H2).
Defined.

(** The program as a whole, without [-n] and [-v]: after options that
    were taken in, with a width of at least 1 left by them (60 when there
    is no [-a]), [main] writes the blocks of the reconstructed records of
    the index named by the first argument to the standard output, nothing
    to the error stream, and returns 0.  Further arguments are not looked
    at. *)
Theorem main_writes_records :
  forall (strtol : cstring -> Z * option Z) (loadEbwt : cstring -> Ebwt)
         (currentlyBigEndian NDEBUG : bool) (fuel : nat)
         (opts : list (Z * cstring)) (file : cstring) (more : list cstring),
    Forall (fun opt => accepted strtol opt = true) opts ->
    has_option "n" opts = false ->
    has_option "v" opts = false ->
    1 <= last_across strtol opts 60 ->
    Forall (fun rs => 0 <= fst rs < Z.of_nat (List.length (refnames (loadEbwt file))) /\
                      (List.length (snd rs) < fuel)%nat /\
                      strlen (snd rs) + last_across strtol opts 60 <= SIZE_MOD)
           (reconstruct (loadEbwt file)) ->
    exists blocks : list (list cstring),
      main strtol loadEbwt currentlyBigEndian NDEBUG fuel opts (file :: more) no_output
        = Ok 0 (mkStreams (List.concat blocks) []) /\
      Forall2 (fasta_block (refnames (loadEbwt file)) (last_across strtol opts 60))
              (reconstruct (loadEbwt file)) blocks.
Proof.
  intros strtol loadEbwt be nd fuel opts file more Hopts Hn Hv HW Hrecs.
  destruct (parseOptions_accepted_state strtol opts Hopts default_options no_output)
    as (o & Hrun & Hverb & Hnames & Hacross).
  rewrite Hv in Hverb. rewrite Hn in Hnames.
  cbn [default_options verbose names_only across orb] in Hverb, Hnames, Hacross.
  destruct (print_records_blocks fuel (last_across strtol opts 60)
              (refnames (loadEbwt file)) HW (reconstruct (loadEbwt file)) [] Hrecs)
    as (blocks & Hprint & Hblocks).
  exists blocks. split; [|exact Hblocks].
  unfold main. unfold bind at 1. rewrite Hrun. rewrite Hverb.
  unfold bind, ret, driver. rewrite Hnames, Hacross.
  cbn [cout cerr no_output].
  unfold print_index_sequences. rewrite Hprint. reflexivity.
Qed.

Lemma main_writes_records_witness :
  Forall (fun opt => accepted strtol10 opt = true) [(code "a", str "3")] /\
  has_option "n" [(code "a", str "3")] = false /\
  has_option "v" [(code "a", str "3")] = false /\
  1 <= last_across strtol10 [(code "a", str "3")] 60 /\
  Forall (fun rs => 0 <= fst rs < Z.of_nat (List.length (refnames ebwt_gap20)) /\
                    (List.length (snd rs) < 30)%nat /\
                    strlen (snd rs) + last_across strtol10 [(code "a", str "3")] 60
                      <= SIZE_MOD)
         (reconstruct ebwt_gap20) /\
  exists blocks : list (list cstring),
    main strtol10 (fun _ => ebwt_gap20) false true 30 [(code "a", str "3")]
         [str "idx"; str "ignored"] no_output
      = Ok 0 (mkStreams (List.concat blocks) []) /\
    Forall2 (fasta_block (refnames ebwt_gap20)
               (last_across strtol10 [(code "a", str "3")] 60))
            (reconstruct ebwt_gap20) blocks.
Proof.
  assert (H1 : Forall (fun opt => accepted strtol10 opt = true) [(code "a", str "3")]).
  { repeat constructor. }
  assert (H2 : has_option "n" [(code "a", str "3")] = false) by reflexivity.
  assert (H3 : has_option "v" [(code "a", str "3")] = false) by reflexivity.
  assert (H4 : 1 <= last_across strtol10 [(code "a", str "3")] 60)
    by (vm_compute; discriminate).
  assert (H5 : Forall (fun rs => 0 <= fst rs < Z.of_nat (List.length (refnames ebwt_gap20)) /\
                                 (List.length (snd rs) < 30)%nat /\
                                 strlen (snd rs)
                                   + last_across strtol10 [(code "a", str "3")] 60
                                   <= SIZE_MOD)
                      (reconstruct ebwt_gap20)).
  { repeat constructor; try (simpl; lia); vm_compute; discriminate. }
  split; [exact H1 | split; [exact H2 | split; [exact H3 | split; [exact H4 |
    split; [exact H5 |]]]]].
  exact (main_writes_records strtol10 (fun _ => ebwt_gap20) false true 30%nat
           [(code "a", str "3")] (str "idx") [str "ignored"] H1 H2 H3 H4 H5).
Defined.

(** The program as a whole with [-n] and without [-v]: [main] writes the
    labels of a non-empty [refnames] except the last one, one per line,
    and returns 0; the width and the joined text play no part. *)
Theorem main_lists_names :
  forall (strtol : cstring -> Z * option Z) (loadEbwt : cstring -> Ebwt)
         (currentlyBigEndian NDEBUG : bool) (fuel : nat)
         (opts : list (Z * cstring)) (file : cstring) (more : list cstring),
    Forall (fun opt => accepted strtol opt = true) opts ->
    has_option "n" opts = true ->
    has_option "v" opts = false ->
    refnames (loadEbwt file) <> [] ->
    Z.of_nat (List.length (refnames (loadEbwt file))) < SIZE_MOD ->
    main strtol loadEbwt currentlyBigEndian NDEBUG fuel opts (file :: more) no_output
      = Ok 0 (mkStreams (all_but_last (refnames (loadEbwt file))) []).
Proof.
  intros strtol loadEbwt be nd fuel opts file more Hopts Hn Hv Hne Hsz.
  destruct (parseOptions_accepted_state strtol opts Hopts default_options no_output)
    as (o & Hrun & Hverb & Hnames & _).
  rewrite Hv in Hverb. rewrite Hn in Hnames.
  cbn [default_options verbose names_only orb] in Hverb, Hnames.
  unfold main. unfold bind at 1. rewrite Hrun. rewrite Hverb.
  unfold bind, ret, driver. rewrite Hnames.
  cbn [cout cerr no_output].
  rewrite (print_names_nonempty [] (loadEbwt file) Hne Hsz). reflexivity.
Qed.

Lemma main_lists_names_witness :
  Forall (fun opt => accepted strtol10 opt = true) [(code "n", [])] /\
  has_option "n" [(code "n", [])] = true /\
  has_option "v" [(code "n", [])] = false /\
  refnames ebwt_names <> [] /\
  Z.of_nat (List.length (refnames ebwt_names)) < SIZE_MOD /\
  main strtol10 (fun _ => ebwt_names) false true 0 [(code "n", [])] [str "idx"] no_output
    = Ok 0 (mkStreams [str "chr1"] []).
Proof.
  assert (H1 : Forall (fun opt => accepted strtol10 opt = true) [(code "n", [])]).
  { repeat constructor. }
  assert (H2 : has_option "n" [(code "n", [])] = true) by reflexivity.
  assert (H3 : has_option "v" [(code "n", [])] = false) by reflexivity.
  assert (H4 : refnames ebwt_names <> []) by discriminate.
  assert (H5 : Z.of_nat (List.length (refnames ebwt_names)) < SIZE_MOD)
    by (vm_compute; reflexivity).
  split; [exact H1 | split; [exact H2 | split; [exact H3 | split; [exact H4 |
    split; [exact H5 |]]]]].
  exact (main_lists_names strtol10 (fun _ => ebwt_names) false true 0%nat
           [(code "n", [])] (str "idx") [] H1 H2 H3 H4 H5).
Defined.

(** The program as a whole with a width that is a positive multiple of
    [2^32]: the option is taken in, [across] is 0, and on an index with at
    least one reconstructed record [main] does not come to an end,
    whatever the number of turns allowed to the wrapping loop: the first
    record's name is outside [refnames] or its wrapping loop never
    advances. *)
Theorem main_width_multiple_of_2_32_never_ends :
  forall (strtol : cstring -> Z * option Z) (loadEbwt : cstring -> Ebwt)
         (currentlyBigEndian NDEBUG : bool) (fuel : nat)
         (optarg : cstring) (l e : Z) (file : cstring) (more : list cstring),
    strtol optarg = (l, Some e) ->
    1 <= l ->
    l mod 2 ^ 32 = 0 ->
    Z.of_nat (List.length (refnames (loadEbwt file))) <= NOREF ->
    reconstruct (loadEbwt file) <> [] ->
    main strtol loadEbwt currentlyBigEndian NDEBUG fuel [(code "a", optarg)]
         (file :: more) no_output
      = Undefined.
Proof.
  intros strtol loadEbwt be nd fuel optarg l e file more Hs Hl Hm Hsz Hne.
  unfold main. unfold bind at 1.
  rewrite (parseOptions_across_wraps strtol optarg l e [] default_options
             no_output Hs Hl Hm).
  cbn [parseOptions ret default_options verbose names_only].
  unfold bind, ret, driver. cbn [names_only across cout no_output].
  unfold print_index_sequences.
  pose proof (reconstruct_has_real_char (loadEbwt file) Hsz) as Hreal.
  destruct (reconstruct (loadEbwt file)) as [|[r s] recs]; [congruence|].
  inversion Hreal as [|? ? [_ Hs_ne] _]; subst. cbn [snd] in Hs_ne.
  cbn [print_records].
  destruct (nth_error (refnames (loadEbwt file)) (Z.to_nat r)); [|reflexivity].
  unfold print_fasta_record. rewrite fasta_loop_zero_width by exact Hs_ne.
  reflexivity.
Qed.

Lemma main_width_multiple_of_2_32_never_ends_witness :
  strtol10 (str "4294967296") = (4294967296, Some 10) /\
  1 <= 4294967296 /\ 4294967296 mod 2 ^ 32 = 0 /\
  Z.of_nat (List.length (refnames ebwt_5_3)) <= NOREF /\
  reconstruct ebwt_5_3 <> [] /\
  main strtol10 (fun _ => ebwt_5_3) false true 1000 [(code "a", str "4294967296")]
       [str "idx"] no_output
    = Undefined.
Proof.
  assert (H1 : strtol10 (str "4294967296") = (4294967296, Some 10)) by reflexivity.
  assert (H2 : 1 <= 4294967296) by lia.
  assert (H3 : 4294967296 mod 2 ^ 32 = 0) by reflexivity.
  assert (H4 : Z.of_nat (List.length (refnames ebwt_5_3)) <= NOREF)
    by (vm_compute; discriminate).
  assert (H5 : reconstruct ebwt_5_3 <> []) by discriminate.
  split; [exact H1 | split; [exact H2 | split; [exact H3 | split; [exact H4 |
    split; [exact H5 |]]]]].
  exact (main_width_multiple_of_2_32_never_ends strtol10 (fun _ => ebwt_5_3)
           false true 1000%nat (str "4294967296") 4294967296 10 (str "idx") []
           H1 H2 H3 H4 H5).
Defined.


(** ** The scan: a rejected position before the end *)

Lemma scan_loop_shift (o o' : Z -> TextOff) (cat : list Dna) :
  forall (i : Z) (st : scan_state),
    (forall j, i <= j -> o' j = o (j + 1)) ->
    scan_loop o' cat i st = scan_loop o cat (i + 1) st.
Proof.
  induction cat as [|c cat IH]; intros i st Hshift; [reflexivity|].
  cbn [scan_loop]. rewrite (Hshift i) by lia.
  apply IH. intros j Hj. apply Hshift. lia.
Qed.

Lemma scan_loop_delete (o : Z -> TextOff) (p : Z) :
  owned (o p) = false ->
  forall (cat : list Dna) (i : Z) (st : scan_state),
    i <= p ->
    (Z.to_nat (p - i) + 1 < List.length cat)%nat ->
    scan_loop (fun j => if j <? p then o j else o (j + 1))
              (firstn (Z.to_nat (p - i)) cat ++ skipn (S (Z.to_nat (p - i))) cat)
              i st
      = scan_loop o cat i st.
Proof.
  intros Hp. induction cat as [|c cat IH]; intros i st Hi Hlen.
  - simpl in Hlen. lia.
  - destruct (Z.eq_dec i p) as [->|Hne].
    + rewrite Z.sub_diag. cbn [Z.to_nat firstn skipn app].
      destruct cat as [|c' cat]; [simpl in Hlen; lia|].
      rewrite (scan_loop_skips_not_owned o) by exact Hp.
      apply scan_loop_shift. intros j Hj.
      assert (E : (j <? p) = false) by (apply Z.ltb_ge; lia).
      now rewrite E.
    + replace (Z.to_nat (p - i)) with (S (Z.to_nat (p - (i + 1)))) by lia.
      cbn [firstn skipn app scan_loop].
      assert (E : (i <? p) = true) by (apply Z.ltb_lt; lia).
      rewrite E. apply IH; [lia|].
      cbn [List.length] in Hlen. lia.
Qed.

(** A position that the test of line 150 rejects (the identity is
    [0xffffffff], or the offset is not below the reported length) and that
    is not the last one of the joined text leaves no trace: the scan goes
    on, and the records, and the text written, are those of the index
    without that position. *)
Theorem rejected_position_leaves_no_trace :
  forall (ebwt : Ebwt) (p : Z),
    0 <= p ->
    p + 1 < Z.of_nat (List.length (restore ebwt)) ->
    owned (joinedToTextOff ebwt p) = false ->
    reconstruct ebwt = reconstruct (delete_position ebwt p) /\
    (forall (fuel : nat) (across : Z) (fout : ostream),
        print_index_sequences fuel across fout ebwt
          = print_index_sequences fuel across fout (delete_position ebwt p)).
Proof.
  intros ebwt p Hp Hlast Hown.
  assert (Hrec : reconstruct ebwt = reconstruct (delete_position ebwt p)).
  { unfold reconstruct. cbn [delete_position refnames restore joinedToTextOff].
    f_equal. symmetry.
    replace (Z.to_nat p) with (Z.to_nat (p - 0)) by (f_equal; lia).
    apply scan_loop_delete; [exact Hown | lia | lia]. }
  split; [exact Hrec|].
  intros fuel across fout. unfold print_index_sequences.
  rewrite <- Hrec. reflexivity.
Qed.

Lemma rejected_position_leaves_no_trace_witness :
  0 <= 1 /\
  1 + 1 < Z.of_nat (List.length (restore ebwt_off_range)) /\
  owned (joinedToTextOff ebwt_off_range 1) = false /\
  restore (delete_position ebwt_off_range 1) = [DnaA; DnaG] /\
  reconstruct ebwt_off_range = reconstruct (delete_position ebwt_off_range 1).
Proof.
  assert (H1 : 0 <= 1) by lia.
  assert (H2 : 1 + 1 < Z.of_nat (List.length (restore ebwt_off_range)))
    by (vm_compute; reflexivity).
  assert (H3 : owned (joinedToTextOff ebwt_off_range 1) = false) by reflexivity.
  split; [exact H1 | split; [exact H2 | split; [exact H3 | split; [reflexivity|]]]].
  exact (proj1 (rejected_position_leaves_no_trace ebwt_off_range 1 H1 H2 H3)).
Defined.
